(** * scripts/build.py: the build wrapper of webgpu-gltf-viewer

    A shallow embedding of [scripts/build.py] and of the part of the
    interpreter's library it runs on, followed by the properties of the
    specification that were checked against it.

    Layout:
    - [Python]: the builtins the script uses ([int], [str], string tests);
    - [Argparse]: [ArgumentParser.parse_args] of CPython 3.11
      (Lib/argparse.py), specialised to the parser that [main] builds
      (lines 59-76 of the script);
    - the script itself: [run_command], [print_argument_info],
      [print_configuration_details], [main];
    - the theorems.

    Scope of the model.  A command-line token is a [string] whose characters
    are read as the code points U+0000..U+00FF.  Python integers are
    unbounded ([Z]); [int] refuses a literal of more than 4300 digits, the
    limit the interpreter starts with.  A command the script runs ends with
    a return code or cannot be started at all, and then [subprocess.run]
    raises; the exit status of the tool is the low byte of the code given
    to [sys.exit].  The text argparse prints (usage, help) depends on the
    terminal and is kept abstract: an event says which of the two was
    printed. *)

From Stdlib Require Import ZArith List String Ascii Bool Lia.
From Stdlib Require Import Decimal DecimalString DecimalZ DecimalPos.
From Stdlib Require DecimalFacts.
Import ListNotations.
Open Scope string_scope.
Open Scope list_scope.
Open Scope Z_scope.

(* ================================================================= *)
(** ** Python builtins *)

Module Python.

(** [c in s] for a one-character [c]. *)
Fixpoint contains (c : ascii) (s : string) : bool :=
  match s with
  | EmptyString => false
  | String a s' => if Ascii.eqb a c then true else contains c s'
  end.

(** [s.startswith(p)]. *)
Definition startswith (s p : string) : bool := String.prefix p s.

(** [s.split(c, 1)] when [c] occurs in [s]: the text before the first [c]
    and the text after it; [None] when [c] does not occur. *)
Fixpoint split1 (c : ascii) (s : string) : option (string * string) :=
  match s with
  | EmptyString => None
  | String a s' =>
      if Ascii.eqb a c then Some (EmptyString, s')
      else match split1 c s' with
           | Some (h, t) => Some (String a h, t)
           | None => None
           end
  end.

(** [sep.join(l)]. *)
Fixpoint join (sep : string) (l : list string) : string :=
  match l with
  | [] => EmptyString
  | [x] => x
  | x :: l' => (x ++ sep ++ join sep l')%string
  end.

(** A decimal digit, as a constructor of [Decimal.uint]. *)
Definition digit (c : ascii) : option (uint -> uint) :=
  match c with
  | "0"%char => Some D0 | "1"%char => Some D1 | "2"%char => Some D2
  | "3"%char => Some D3 | "4"%char => Some D4 | "5"%char => Some D5
  | "6"%char => Some D6 | "7"%char => Some D7 | "8"%char => Some D8
  | "9"%char => Some D9
  | _ => None
  end.

Definition isdigit (c : ascii) : bool :=
  match digit c with Some _ => true | None => false end.

(** White space that [int] skips: tab, LF, VT, FF, CR and space, and the two
    other spaces below U+0100 (NEL and NBSP), which the conversion turns
    into a space first. *)
Definition isspace (c : ascii) : bool :=
  match c with
  | "009"%char | "010"%char | "011"%char | "012"%char | "013"%char
  | " "%char | "133"%char | "160"%char => true
  | _ => false
  end.

Fixpoint lstrip (s : string) : string :=
  match s with
  | String c s' => if isspace c then lstrip s' else s
  | EmptyString => EmptyString
  end.

Fixpoint all_space (s : string) : bool :=
  match s with
  | String c s' => isspace c && all_space s'
  | EmptyString => true
  end.

(** The digits of a literal after its first digit: digits, each optionally
    preceded by one underscore; returns them with the unread rest. *)
Fixpoint int_digits (s : string) : option (uint * string) :=
  match s with
  | EmptyString => Some (Nil, EmptyString)
  | String c s' =>
      match digit c with
      | Some d =>
          match int_digits s' with
          | Some (u, rest) => Some (d u, rest)
          | None => None
          end
      | None =>
          if Ascii.eqb c "_" then
            match s' with
            | String c' _ => if isdigit c' then int_digits s' else None
            | EmptyString => None
            end
          else Some (Nil, s)
      end
  end.

(** [sys.int_info.default_max_str_digits]: the most digits, leading zeros
    counted and underscores not, that [int] reads; the script does not
    change the limit. *)
Definition int_max_str_digits : nat := 4300.

(** A literal without sign: a digit, then [int_digits], no more of them
    than the limit, then white space to the end. *)
Definition int_unsigned (s : string) : option uint :=
  match s with
  | String c _ =>
      if isdigit c then
        match int_digits s with
        | Some (u, rest) =>
            if (nb_digits u <=? int_max_str_digits)%nat then
              if all_space rest then Some u else None
            else None
        | None => None
        end
      else None
  | EmptyString => None
  end.

(** [int(s)] in base ten; [None] stands for [ValueError]. *)
Definition int (s : string) : option Z :=
  match lstrip s with
  | String "+" s' =>
      match int_unsigned s' with Some u => Some (Z.of_int (Pos u)) | None => None end
  | String "-" s' =>
      match int_unsigned s' with Some u => Some (Z.of_int (Neg u)) | None => None end
  | s' =>
      match int_unsigned s' with Some u => Some (Z.of_int (Pos u)) | None => None end
  end.

(** [str(n)] for an integer: its decimal numeral.  The interpreter
    refuses to write more than [int_max_str_digits] digits; the integers the
    script formats come from [int] or are the default 8, and stay below
    (see [int_within_limit] and [jobs_read]). *)
Definition str (n : Z) : string := NilZero.string_of_int (Z.to_int n).

End Python.

(* ================================================================= *)
(** ** argparse, for the parser of [main] *)

(** What [args.jobs] can hold after parsing: the [int] made by [type=int],
    or the empty list the library leaves when the value attached to the
    option is [--] (see [get_values]). *)
Inductive jobs_value : Type :=
| int_value (n : Z)
| empty_list.

Module Argparse.

(** The actions of the parser, in the order they are registered: the help
    action every parser has, then lines 65, 67, 71, 73 and 75. *)
Inductive Action : Type := help | debug | release | web | jobs | info.

Definition Action_eqb (a b : Action) : bool :=
  match a, b with
  | help, help | debug, debug | release, release
  | web, web | jobs, jobs | info, info => true
  | _, _ => false
  end.

(** [parser._option_string_actions], a dict: iteration follows insertion. *)
Definition option_string_actions : list (string * Action) :=
  [("-h", help); ("--help", help); ("--debug", debug); ("--release", release);
   ("--web", web); ("--jobs", jobs); ("-j", jobs); ("--info", info)].

Fixpoint lookup (s : string) (d : list (string * Action)) : option Action :=
  match d with
  | [] => None
  | (k, a) :: d' => if String.eqb s k then Some a else lookup s d'
  end.

(** [action.nargs]: [0] for help, store_const and store_true, [None] (one
    argument) for [--jobs]. *)
Inductive Nargs : Type := nargs_0 | nargs_None.

Definition nargs (a : Action) : Nargs :=
  match a with jobs => nargs_None | _ => nargs_0 end.

(** [action_conflicts], from the one mutually exclusive group (line 64). *)
Definition action_conflicts (a : Action) : list Action :=
  match a with
  | debug => [release]
  | release => [debug]
  | _ => []
  end.

(** The messages of [ArgumentError] and [parser.error]. *)
Inductive ArgumentError : Type :=
| ambiguous_option (arg_string : string) (matches : list string)
| unexpected_option_string (arg_string : string)
| not_allowed_with (a conflict : Action)
| ignored_explicit_argument (a : Action) (explicit_arg : string)
| expected_one_argument (a : Action)
| invalid_int_value (arg_string : string)
| unrecognized_arguments (extras : list string).

(** How a call into the parser ends: it returns, or [parser.error] prints
    the usage and leaves with status 2, or the help action prints the help
    and leaves with status 0. *)
Inductive result (A : Type) : Type :=
| ok (a : A)
| usage_error (e : ArgumentError)
| help_exit.
Arguments ok {A} a.
Arguments usage_error {A} e.
Arguments help_exit {A}.

Definition bind {A B : Type} (m : result A) (f : A -> result B) : result B :=
  match m with
  | ok a => f a
  | usage_error e => usage_error e
  | help_exit => help_exit
  end.

Fixpoint nonempty_digits (s : string) : bool :=
  match s with
  | EmptyString => false
  | String c EmptyString => Python.isdigit c
  | String c s' => Python.isdigit c && nonempty_digits s'
  end.

Fixpoint digits (s : string) : bool :=
  match s with
  | EmptyString => true
  | String c s' => Python.isdigit c && digits s'
  end.

(** The text a pattern ending in [$] is matched against: [$] also matches
    before one final newline. *)
Fixpoint before_final_newline (s : string) : string :=
  match s with
  | EmptyString => EmptyString
  | String "010" EmptyString => EmptyString
  | String c s' => String c (before_final_newline s')
  end.

(** [parser._negative_number_matcher.match]: [^-\d+$|^-\d*\.\d+$]. *)
Definition negative_number (s : string) : bool :=
  match before_final_newline s with
  | String "-" t =>
      nonempty_digits t
      || match Python.split1 "." t with
         | Some (a, b) => digits a && nonempty_digits b
         | None => false
         end
  | _ => false
  end.

(** An option tuple: the action (or [None]), the option string it was
    found under, and the argument written in the same token, if any. *)
Definition option_tuple : Type := option Action * string * option string.

(** [_get_option_tuples]; [None] stands for its "unexpected option string"
    error.  It is called on strings of two characters or more. *)
Definition get_option_tuples (option_string : string)
  : option (list option_tuple) :=
  match option_string with
  | String "-" (String c1 rest) =>
      if Ascii.eqb c1 "-" then
        (* two prefix characters: split at the '=' only; abbreviations *)
        let '(option_prefix, explicit_arg) :=
          match Python.split1 "=" option_string with
          | Some (p, e) => (p, Some e)
          | None => (option_string, None)
          end in
        Some (flat_map
                (fun '(os, a) =>
                   if Python.startswith os option_prefix
                   then [(Some a, os, explicit_arg)] else [])
                option_string_actions)
      else
        (* one prefix character: the option may carry its argument *)
        let option_prefix := option_string in
        let short_option_prefix := String "-" (String c1 EmptyString) in
        let short_explicit_arg := rest in
        Some (flat_map
                (fun '(os, a) =>
                   if String.eqb os short_option_prefix
                   then [(Some a, os, Some short_explicit_arg)]
                   else if Python.startswith os option_prefix
                   then [(Some a, os, None)] else [])
                option_string_actions)
  | _ => None
  end.

(** What [_parse_optional] answers for one token. *)
Inductive parsed_optional : Type :=
| positional                      (* returns None: pattern 'A' *)
| optional (t : option_tuple)     (* returns a tuple: pattern 'O' *)
| failed (e : ArgumentError).     (* calls parser.error *)

Definition parse_optional (arg_string : string) : parsed_optional :=
  match arg_string with
  | EmptyString => positional
  | String c0 tail =>
      if negb (Ascii.eqb c0 "-") then positional
      else
        match lookup arg_string option_string_actions with
        | Some a => optional (Some a, arg_string, None)
        | None =>
            match tail with
            | EmptyString => positional
            | _ =>
                let before_equals :=
                  match Python.split1 "=" arg_string with
                  | Some (option_string, explicit_arg) =>
                      match lookup option_string option_string_actions with
                      | Some a => Some (Some a, option_string, Some explicit_arg)
                      | None => None
                      end
                  | None => None
                  end in
                match before_equals with
                | Some t => optional t
                | None =>
                    match get_option_tuples arg_string with
                    | None => failed (unexpected_option_string arg_string)
                    | Some (t1 :: t2 :: ts) =>
                        failed (ambiguous_option arg_string
                                  (map (fun t => snd (fst t)) (t1 :: t2 :: ts)))
                    | Some [t] => optional t
                    | Some [] =>
                        (* no option of this parser looks like a negative
                           number, so such a token is an argument *)
                        if negative_number arg_string then positional
                        else if Python.contains " " arg_string then positional
                        else optional (None, arg_string, None)
                    end
                end
            end
        end
  end.

(** One token with its letter in [arg_strings_pattern]. *)
Inductive token : Type :=
| A (arg_string : string)
| O (arg_string : string) (t : option_tuple)
| dashes.                         (* the first '--', letter '-' *)

Definition arg_string_of (t : token) : string :=
  match t with
  | A s => s
  | O s _ => s
  | dashes => "--"
  end.

(** The first loop of [_parse_known_args] (lines 1936-1956 of argparse.py):
    everything after the first [--] is an argument. *)
Fixpoint classify (arg_strings : list string) : result (list token) :=
  match arg_strings with
  | [] => ok []
  | arg_string :: rest =>
      if String.eqb arg_string "--" then ok (dashes :: map A rest)
      else
        match parse_optional arg_string with
        | failed e => usage_error e
        | positional => bind (classify rest) (fun ts => ok (A arg_string :: ts))
        | optional t => bind (classify rest) (fun ts => ok (O arg_string t :: ts))
        end
  end.

(** The namespace [parse_args] returns. *)
Record Namespace : Type := mkNamespace {
  build_type : string;
  web_flag : bool;
  jobs_count : jobs_value;
  info_flag : bool
}.

(** The defaults put in the namespace before parsing: [set_defaults] of
    line 69, [store_true] and [default=8]. *)
Definition defaults : Namespace :=
  {| build_type := "Release"; web_flag := false;
     jobs_count := int_value 8; info_flag := false |}.

(** The mutable state of [_parse_known_args]. *)
Record state : Type := mkState {
  namespace : Namespace;
  seen_non_default_actions : list Action;
  extras : list string
}.

Definition seen (a : Action) (st : state) : bool :=
  existsb (Action_eqb a) (seen_non_default_actions st).

(** [_get_values] for [--jobs], whose argument strings are one string: the
    string [--] is removed first, and the empty list that remains is
    converted to the empty list. *)
Definition get_values (arg_string : string) : result jobs_value :=
  if String.eqb arg_string "--" then ok empty_list
  else match Python.int arg_string with
       | Some n => ok (int_value n)
       | None => usage_error (invalid_int_value arg_string)
       end.

(** [argument_values is not action.default]: the values of an action
    without argument are a fresh list; for [--jobs] the default is the
    integer 8, and the interpreter shares the small integers. *)
Definition is_not_default (v : jobs_value) : bool :=
  match v with
  | int_value 8 => false
  | _ => true
  end.

Definition check_conflicts (a : Action) (st : state) : result state :=
  let st' := {| namespace := namespace st;
                seen_non_default_actions := a :: seen_non_default_actions st;
                extras := extras st |} in
  match find (fun c => seen c st') (action_conflicts a) with
  | Some c => usage_error (not_allowed_with a c)
  | None => ok st'
  end.

Definition set_namespace (f : Namespace -> Namespace) (st : state) : state :=
  {| namespace := f (namespace st);
     seen_non_default_actions := seen_non_default_actions st;
     extras := extras st |}.

(** [take_action]: convert the arguments, check the conflicts, call the
    action. *)
Definition take_action (a : Action) (argument_strings : list string)
    (st : state) : result state :=
  match a with
  | jobs =>
      match argument_strings with
      | [arg_string] =>
          bind (get_values arg_string) (fun v =>
          bind (if is_not_default v then check_conflicts jobs st else ok st)
               (fun st' =>
          ok (set_namespace
                (fun ns => {| build_type := build_type ns; web_flag := web_flag ns;
                              jobs_count := v; info_flag := info_flag ns |}) st')))
      | _ => ok st                 (* not reached: exactly one is matched *)
      end
  | help => bind (check_conflicts help st) (fun _ => help_exit)
  | debug =>
      bind (check_conflicts debug st) (fun st' =>
      ok (set_namespace
            (fun ns => {| build_type := "Debug"; web_flag := web_flag ns;
                          jobs_count := jobs_count ns; info_flag := info_flag ns |}) st'))
  | release =>
      bind (check_conflicts release st) (fun st' =>
      ok (set_namespace
            (fun ns => {| build_type := "Release"; web_flag := web_flag ns;
                          jobs_count := jobs_count ns; info_flag := info_flag ns |}) st'))
  | web =>
      bind (check_conflicts web st) (fun st' =>
      ok (set_namespace
            (fun ns => {| build_type := build_type ns; web_flag := true;
                          jobs_count := jobs_count ns; info_flag := info_flag ns |}) st'))
  | info =>
      bind (check_conflicts info st) (fun st' =>
      ok (set_namespace
            (fun ns => {| build_type := build_type ns; web_flag := web_flag ns;
                          jobs_count := jobs_count ns; info_flag := true |}) st'))
  end.

Fixpoint take_actions (tuples : list (Action * list string)) (st : state)
  : result state :=
  match tuples with
  | [] => ok st
  | (a, args) :: tuples' => bind (take_action a args st) (take_actions tuples')
  end.

(** [_match_argument] on the letters that follow the option: the pattern of
    [--jobs] is [(A)], that of the others [()]. *)
Definition match_argument (a : Action) (following : list token) : result nat :=
  match nargs a with
  | nargs_0 => ok 0%nat
  | nargs_None =>
      match following with
      | A _ :: _ => ok 1%nat
      | _ => usage_error (expected_one_argument a)
      end
  end.

(** The [while True] of [consume_optional] when there is an explicit
    argument: [-xyz] is read as [-x -y -z] while the options take none.
    Returns the action tuples and the number of following tokens used. *)
Fixpoint explicit_chain (a : Action) (option_string explicit_arg : string)
    (following : list token) {struct explicit_arg}
  : result (list (Action * list string) * nat) :=
  match nargs a with
  | nargs_None => ok ([(a, [explicit_arg])], 0%nat)      (* arg_count == 1 *)
  | nargs_0 =>
      match option_string, explicit_arg with
      | String c0 (String c1 _), String e0 e' =>
          if negb (Ascii.eqb c1 "-") then
            let option_string' := String c0 (String e0 EmptyString) in
            match lookup option_string' option_string_actions with
            | Some a' =>
                bind
                  match e' with
                  | EmptyString =>       (* new_explicit_arg is None *)
                      bind (match_argument a' following) (fun n =>
                      ok ([(a', map arg_string_of (firstn n following))], n))
                  | _ => explicit_chain a' option_string' e' following
                  end
                  (fun '(tuples, n) => ok ((a, []) :: tuples, n))
            | None => usage_error (ignored_explicit_argument a explicit_arg)
            end
          else usage_error (ignored_explicit_argument a explicit_arg)
      | _, _ => usage_error (ignored_explicit_argument a explicit_arg)
      end
  end.

(** [consume_optional] up to its calls of [take_action]. *)
Definition action_tuples (a : Action) (option_string : string)
    (explicit_arg : option string) (following : list token)
  : result (list (Action * list string) * nat) :=
  match explicit_arg with
  | Some e => explicit_chain a option_string e following
  | None =>
      bind (match_argument a following) (fun n =>
      ok ([(a, map arg_string_of (firstn n following))], n))
  end.

Definition add_extra (s : string) (st : state) : state :=
  {| namespace := namespace st;
     seen_non_default_actions := seen_non_default_actions st;
     extras := extras st ++ [s] |}.

(** The main loop of [_parse_known_args] (lines 2087-2125): the parser has
    no positional argument, so every token that is not an option, or the
    argument of one, is an extra. *)
Fixpoint consume (st : state) (tokens : list token) : result state :=
  match tokens with
  | [] => ok st
  | A s :: rest => consume (add_extra s st) rest
  | dashes :: rest => consume (add_extra "--" st) rest
  | O s (None, _, _) :: rest => consume (add_extra s st) rest
  | O s (Some a, option_string, explicit_arg) :: rest =>
      match action_tuples a option_string explicit_arg rest with
      | ok (tuples, n) =>
          match take_actions tuples st with
          | ok st' =>
              match n, rest with
              | S _, _ :: rest' => consume st' rest'
              | _, _ => consume st' rest
              end
          | usage_error e => usage_error e
          | help_exit => help_exit
          end
      | usage_error e => usage_error e
      | help_exit => help_exit
      end
  end.

Definition initial : state :=
  {| namespace := defaults; seen_non_default_actions := []; extras := [] |}.

(** [parser.parse_known_args(argv)]: the namespace and the extras. *)
Definition parse_known_args (arg_strings : list string) : result state :=
  bind (classify arg_strings) (consume initial).

(** [parser.parse_args(argv)]: extras are an error. *)
Definition parse_args (arg_strings : list string) : result Namespace :=
  bind (parse_known_args arg_strings) (fun st =>
  match extras st with
  | [] => ok (namespace st)
  | argv => usage_error (unrecognized_arguments argv)
  end).

End Argparse.

(* ================================================================= *)
(** ** The script *)

(** What a run does to the outside, in order. *)
Inductive event : Type :=
| print (text : string)                        (* [print(text)] of the script *)
| print_help                                   (* argparse: help on stdout *)
| print_usage_error (e : Argparse.ArgumentError) (* argparse: usage on stderr *)
| spawn (command : list string) (cwd : string) (* a child process starts *)
| wait (command : list string) (returncode : Z). (* it has ended *)

(** What the script cannot decide: where it lies, and how the commands it
    runs end.  A command that cannot be started (no such program, no
    permission) has no return code. *)
Record Env : Type := mkEnv {
  base_dir : string;                  (* Path(__file__).resolve().parent.parent *)
  returncode : list string -> option Z (* result.returncode of a command *)
}.

(** How a piece of the script ends: it returns, [SystemExit] is raised, or
    [subprocess.run] raises [OSError] (as [FileNotFoundError] for a program
    that is not installed), which nothing in the script catches. *)
Inductive outcome (A : Type) : Type :=
| Returned (a : A)
| SystemExit (code : Z)
| OSError.
Arguments Returned {A} a.
Arguments SystemExit {A} code.
Arguments OSError {A}.

(** Script code: reads the environment, leaves a trace, ends. *)
Definition Py (A : Type) : Type := Env -> list event * outcome A.

Definition ret {A : Type} (a : A) : Py A := fun _ => ([], Returned a).

Definition bind {A B : Type} (m : Py A) (f : A -> Py B) : Py B :=
  fun env =>
    match m env with
    | (t, Returned a) => let (t', o) := f a env in (t ++ t', o)
    | (t, SystemExit code) => (t, SystemExit code)
    | (t, OSError) => (t, OSError)
    end.

Definition emit (e : event) : Py unit := fun _ => ([e], Returned tt).

Definition sys_exit {A : Type} (code : Z) : Py A := fun _ => ([], SystemExit code).

Definition raise_OSError {A : Type} : Py A := fun _ => ([], OSError).

Definition ask : Py Env := fun env => ([], Returned env).

Declare Scope py_scope.
Delimit Scope py_scope with py.
Notation "x <- m ;; k" := (bind m (fun x => k))
  (at level 100, m at next level, right associativity) : py_scope.
Notation "m ;; k" := (bind m (fun _ => k))
  (at level 100, right associativity) : py_scope.
Open Scope py_scope.

(** [subprocess.run(command, cwd=cwd)]: starts the child, blocks until it
    has ended, returns its return code.  For a command that cannot be
    started no child exists and the call raises. *)
Definition subprocess_run (command : list string) (cwd : string) : Py Z :=
  env <- ask ;;
  match returncode env command with
  | Some code =>
      emit (spawn command cwd) ;;
      emit (wait command code) ;;
      ret code
  | None => raise_OSError
  end.

(** Lines 7-12. *)
Definition run_command (command : list string) (cwd : string) : Py unit :=
  emit (print ("Running: " ++ Python.join " " command)) ;;
  result_returncode <- subprocess_run command cwd ;;
  if negb (result_returncode =? 0) then
    emit (print ("Error: Command " ++ Python.join " " command ++ " failed.")) ;;
    sys_exit result_returncode
  else ret tt.

(** Lines 15-42. *)
Definition info_text : string :=
"
Build Project Script Argument Information:
-------------------------------------------
--help, -h       : Show this help message and exit.
--release        : Build in Release mode (default). You can be explicit.
--debug          : Build in Debug mode.
--web            : Build for web using emcmake.
--jobs, -j       : Number of parallel build jobs (default: 8).
--info           : Print information about build arguments and exit.

Available Configurations:
1. Native Release: 
   cmake -DCMAKE_BUILD_TYPE=Release -S . -B build-release
   cmake --build build-release -j8

2. Native Debug:
   cmake -DCMAKE_BUILD_TYPE=Debug -S . -B build-debug
   cmake --build build-debug -j8

3. Web Release:
   emcmake cmake -DCMAKE_BUILD_TYPE=Release -B build-web-release
   cmake --build build-web-release -j8

4. Web Debug:
   emcmake cmake -DCMAKE_BUILD_TYPE=Debug -B build-web-debug
   cmake --build build-web-debug -j8
-------------------------------------------
".

(** Lines 14-43. *)
Definition print_argument_info : Py unit := emit (print info_text).

(** [f"{args.jobs}"]. *)
Definition format_jobs (jobs : jobs_value) : string :=
  match jobs with
  | int_value n => Python.str n
  | empty_list => "[]"
  end.

(** Lines 46-55: the text of [details]. *)
Definition configuration_details (build_type : string) (is_web : bool)
    (build_dir : string) (jobs : jobs_value) : string :=
  let target := if is_web then "Web" else "Native" in
    ("
-------------------------------------------
Build Configuration Details:
  Build Type   : " ++ build_type ++ "
  Build Target : " ++ target ++ "
  Build Dir    : " ++ build_dir ++ "
  Jobs         : " ++ format_jobs jobs ++ "
-------------------------------------------
")%string.

(** Lines 45-56. *)
Definition print_configuration_details (build_type : string) (is_web : bool)
    (build_dir : string) (jobs : jobs_value) : Py unit :=
  emit (print (configuration_details build_type is_web build_dir jobs)).

(** Lines 88-103: the build directory and the two command lines. *)
Definition compose (args : Argparse.Namespace)
  : string * list string * list string :=
  if Argparse.web_flag args then
    let build_dir :=
      if String.eqb (Argparse.build_type args) "Debug"
      then "build-web-debug" else "build-web-release" in
    let cmake_command :=
      ["emcmake"; "cmake";
       ("-DCMAKE_BUILD_TYPE=" ++ Argparse.build_type args)%string;
       "-B"; build_dir] in
    let build_command :=
      ["cmake"; "--build"; build_dir;
       ("-j" ++ format_jobs (Argparse.jobs_count args))%string] in
    (build_dir, cmake_command, build_command)
  else
    let build_dir :=
      if String.eqb (Argparse.build_type args) "Debug"
      then "build-debug" else "build-release" in
    let cmake_command :=
      ["cmake"; ("-DCMAKE_BUILD_TYPE=" ++ Argparse.build_type args)%string;
       "-S"; "."; "-B"; build_dir] in
    let build_command :=
      ["cmake"; "--build"; build_dir;
       ("-j" ++ format_jobs (Argparse.jobs_count args))%string] in
    (build_dir, cmake_command, build_command).

Definition build_dir_of (args : Argparse.Namespace) : string :=
  fst (fst (compose args)).
Definition cmake_command_of (args : Argparse.Namespace) : list string :=
  snd (fst (compose args)).
Definition build_command_of (args : Argparse.Namespace) : list string :=
  snd (compose args).

(** Line 78: [parser.parse_args()] on the arguments of the process. *)
Definition parse_args (argv : list string) : Py Argparse.Namespace :=
  match Argparse.parse_args argv with
  | Argparse.ok args => ret args
  | Argparse.usage_error e => emit (print_usage_error e) ;; sys_exit 2
  | Argparse.help_exit => emit print_help ;; sys_exit 0
  end.

(** Lines 58-109. *)
Definition main (argv : list string) : Py unit :=
  args <- parse_args argv ;;
  if Argparse.info_flag args then
    print_argument_info
  else
    env <- ask ;;
    emit (print ("Project base directory: " ++ base_dir env)) ;;
    let '(build_dir, cmake_command, build_command) := compose args in
    print_configuration_details (Argparse.build_type args)
      (Argparse.web_flag args) build_dir (Argparse.jobs_count args) ;;
    run_command cmake_command (base_dir env) ;;
    emit (print "Building project:") ;;
    run_command build_command (base_dir env).

(** The exit code the interpreter ends with when [main] has ended (lines
    111-112): 0 when it returns, the argument of [sys.exit], and 1 after the
    traceback of an exception that was not caught. *)
Definition exit_code (o : outcome unit) : Z :=
  match o with
  | Returned _ => 0
  | SystemExit code => code
  | OSError => 1
  end.

(** What the operating system reports of an exit code: the interpreter
    turns it into a C [long] (64 bits here; -1 when it does not fit) and
    the parent process sees the low eight bits. *)
Definition exit_status (code : Z) : Z :=
  if (- 2 ^ 63 <=? code) && (code <? 2 ^ 63) then Z.land code 255
  else 255.

(** The trace of a run, its exit code, and the exit status of the
    process. *)
Definition trace (env : Env) (argv : list string) : list event :=
  fst (main argv env).
Definition status (env : Env) (argv : list string) : Z :=
  exit_code (snd (main argv env)).
Definition process_status (env : Env) (argv : list string) : Z :=
  exit_status (status env argv).

(** The commands a trace started, in order. *)
Fixpoint spawned (t : list event) : list (list string) :=
  match t with
  | [] => []
  | spawn command _ :: t' => command :: spawned t'
  | _ :: t' => spawned t'
  end.

(** The number of children alive after a trace. *)
Fixpoint alive (t : list event) : Z :=
  match t with
  | [] => 0
  | spawn _ _ :: t' => alive t' + 1
  | wait _ _ :: t' => alive t' - 1
  | _ :: t' => alive t'
  end.

(* ================================================================= *)
(** ** Vocabulary of the statements *)

(** A token that can select the help action: [-h], alone or followed by
    more in the same token, or an abbreviation of [--help]. *)
Definition mentions_help (s : string) : bool :=
  Python.startswith s "-h" || Python.startswith s "--h".

(** A token that can select the jobs action: [-j], alone or with its value
    attached, or an abbreviation of [--jobs]. *)
Definition mentions_jobs (s : string) : bool :=
  Python.startswith s "-j" || Python.startswith s "--j".

(** [s.endswith(suffix)]. *)
Fixpoint endswith (s suffix : string) : bool :=
  String.eqb s suffix
  || match s with
     | String _ s' => endswith s' suffix
     | EmptyString => false
     end.

(** An environment in which every command succeeds. *)
Definition quiet_env : Env :=
  {| base_dir := "/src/webgpu-gltf-viewer"; returncode := fun _ => Some 0 |}.

(** An environment in which every command ends with the given code. *)
Definition failing_env (code : Z) : Env :=
  {| base_dir := "/src/webgpu-gltf-viewer";
     returncode := fun _ => Some code |}.

(** The events of a trace that concern child processes. *)
Definition is_child_event (e : event) : bool :=
  match e with
  | spawn _ _ | wait _ _ => true
  | _ => false
  end.

Definition child_events (t : list event) : list event :=
  filter is_child_event t.

(** The action a token selects first, if any. *)
Definition head_action (t : Argparse.token) : option Argparse.Action :=
  match t with
  | Argparse.O _ (a, _, _) => a
  | _ => None
  end.

(** A token whose option string is registered for its action, as
    [_parse_optional] produces them. *)
Definition registered (t : Argparse.token) : Prop :=
  match t with
  | Argparse.O _ (Some a, os, _) =>
      Argparse.lookup os Argparse.option_string_actions = Some a
  | _ => True
  end.

(** What tells apart the option strings of the parser: the prefix
    characters and the character after them. *)
Definition key (option_string : string) : string :=
  match option_string with
  | String "-" (String "-" (String c _)) =>
      String "-" (String "-" (String c EmptyString))
  | String a (String b _) => String a (String b EmptyString)
  | _ => option_string
  end.

(** One turn of the loop of [Argparse.consume]: the state after the first
    token, and the tokens left. *)
Definition step (st : Argparse.state) (t : Argparse.token)
    (rest : list Argparse.token)
  : Argparse.result (Argparse.state * list Argparse.token) :=
  match t with
  | Argparse.A s => Argparse.ok (Argparse.add_extra s st, rest)
  | Argparse.dashes => Argparse.ok (Argparse.add_extra "--" st, rest)
  | Argparse.O s (None, _, _) => Argparse.ok (Argparse.add_extra s st, rest)
  | Argparse.O s (Some a, option_string, explicit_arg) =>
      Argparse.bind (Argparse.action_tuples a option_string explicit_arg rest)
        (fun '(tuples, n) =>
           Argparse.bind (Argparse.take_actions tuples st)
             (fun st' =>
                Argparse.ok (st', match n, rest with
                                  | S _, _ :: rest' => rest'
                                  | _, _ => rest
                                  end)))
  end.

(** The two build types have not both been seen. *)
Definition exclusive (st : Argparse.state) : Prop :=
  Argparse.seen Argparse.debug st = true ->
  Argparse.seen Argparse.release st = true -> False.

(** The loop did not accept: it ended in a usage error, or in the help on
    one of the given tokens. *)
Definition refused (tp : list Argparse.token)
    (r : Argparse.result Argparse.state) : Prop :=
  match r with
  | Argparse.ok _ => False
  | Argparse.usage_error _ => True
  | Argparse.help_exit =>
      Exists (fun t => head_action t = Some Argparse.help) tp
  end.

(** What the first loop keeps of each token: its text, and for an option
    what [_parse_optional] said of it. *)
Definition faithful (arg_strings : list string) (t : Argparse.token) : Prop :=
  In (Argparse.arg_string_of t) arg_strings
  /\ match t with
     | Argparse.A s => True
     | Argparse.O s tu =>
         s <> "--" /\ Argparse.parse_optional s = Argparse.optional tu
     | Argparse.dashes => True
     end.

(** The ways to give the value [v] to the jobs option: in the next token,
    after an equals sign, or attached to [-j].  The attached value [--] is
    left out: the parser drops it (see [Argparse.get_values]). *)
Inductive gives_jobs (v : string) : list string -> Prop :=
| gives_next (flag : string) :
    In flag ["--jobs"; "-j"] -> gives_jobs v [flag; v]
| gives_equals (flag : string) :
    In flag ["--jobs"; "-j"] -> v <> "--" ->
    gives_jobs v [(flag ++ "=" ++ v)%string]
| gives_attached (c : ascii) (v' : string) :
    v = String c v' -> c <> "="%char -> v <> "--" ->
    gives_jobs v [("-j" ++ v)%string].



(** A token that is an extra and cannot be the argument of an option. *)
Definition surely_extra (t : Argparse.token) : Prop :=
  head_action t = None /\ forall v, t <> Argparse.A v.

(** The parser did not accept: it reported a usage error, or it printed
    the help on one of the given tokens. *)
Definition rejected_or_help {A : Type} (pre : list string)
    (r : Argparse.result A) : Prop :=
  (exists e, r = Argparse.usage_error e)
  \/ (r = Argparse.help_exit
      /\ Exists (fun s => mentions_help s = true) pre).

(** What a run prints up to the call that runs the configure command. *)
Definition configure_start (env : Env) (args : Argparse.Namespace)
  : list event :=
  [print ("Project base directory: " ++ base_dir env);
   print (configuration_details (Argparse.build_type args)
            (Argparse.web_flag args) (build_dir_of args)
            (Argparse.jobs_count args));
   print ("Running: " ++ Python.join " " (cmake_command_of args))].

(** What it prints and starts up to the end of the configure command, when
    that ends with [code]. *)
Definition configure_events (env : Env) (args : Argparse.Namespace)
    (code : Z) : list event :=
  configure_start env args
  ++ [spawn (cmake_command_of args) (base_dir env);
      wait (cmake_command_of args) code].

(** What it prints from there up to the call that runs the build command. *)
Definition build_start (args : Argparse.Namespace) : list event :=
  [print "Building project:";
   print ("Running: " ++ Python.join " " (build_command_of args))].

(** What it prints and starts from there to the end of the build command,
    when that ends with [code]. *)
Definition build_events (env : Env) (args : Argparse.Namespace)
    (code : Z) : list event :=
  build_start args
  ++ [spawn (build_command_of args) (base_dir env);
      wait (build_command_of args) code].

(** The message of [run_command] for a command that failed. *)
Definition failure_event (command : list string) : event :=
  print ("Error: Command " ++ Python.join " " command ++ " failed.").

(** A turn of the loop that went well, by what the first token was: an
    extra, an option without argument, [--jobs] with its value attached, or
    [--jobs] with its value in the next token. *)
Inductive took (st : Argparse.state)
  : Argparse.token -> list Argparse.token ->
    Argparse.state -> list Argparse.token -> Prop :=
| took_extra (t : Argparse.token) (rest : list Argparse.token) :
    head_action t = None ->
    took st t rest (Argparse.add_extra (Argparse.arg_string_of t) st) rest
| took_flag (s os : string) (a : Argparse.Action)
    (rest : list Argparse.token) (st' : Argparse.state) :
    a <> Argparse.help -> a <> Argparse.jobs ->
    Argparse.take_action a [] st = Argparse.ok st' ->
    took st (Argparse.O s (Some a, os, None)) rest st' rest
| took_jobs_attached (s os x : string) (rest : list Argparse.token)
    (st' : Argparse.state) :
    Argparse.take_action Argparse.jobs [x] st = Argparse.ok st' ->
    took st (Argparse.O s (Some Argparse.jobs, os, Some x)) rest st' rest
| took_jobs_next (s os v : string) (rest : list Argparse.token)
    (st' : Argparse.state) :
    Argparse.take_action Argparse.jobs [v] st = Argparse.ok st' ->
    took st (Argparse.O s (Some Argparse.jobs, os, None))
         (Argparse.A v :: rest) st' rest.

(** A command of the form [_ --build ...]: the build command. *)
Definition is_build_command (command : list string) : bool :=
  match command with
  | _ :: second :: _ => String.eqb second "--build"
  | _ => false
  end.

(** An environment in which the configure command succeeds and the build
    command ends with the given code. *)
Definition build_failing_env (code : Z) : Env :=
  {| base_dir := "/src/webgpu-gltf-viewer";
     returncode := fun command =>
                     Some (if is_build_command command then code else 0) |}.

(** An environment without the Emscripten tools: [emcmake] cannot be
    started, every other command succeeds. *)
Definition no_emcmake_env : Env :=
  {| base_dir := "/src/webgpu-gltf-viewer";
     returncode := fun command =>
                     match command with
                     | first :: _ =>
                         if String.eqb first "emcmake" then None else Some 0
                     | [] => Some 0
                     end |}.

(** The prefixes of a string, shortest first. *)
Fixpoint prefixes (s : string) : list string :=
  EmptyString
  :: match s with
     | String c s' => map (String c) (prefixes s')
     | EmptyString => []
     end.

(** A token that [_parse_optional] takes for one of the options of the
    parser. *)
Definition recognised (s : string) : Prop :=
  exists a os e,
    Argparse.parse_optional s = Argparse.optional (Some a, os, e).

(** A token that [int] reads. *)
Definition integer_literal (s : string) : Prop :=
  exists n, Python.int s = Some n.

(** A token that was used: an option of the parser, or an argument that
    [--jobs] converted. *)
Definition used (t : Argparse.token) : Prop :=
  match t with
  | Argparse.O _ (Some _, _, _) => True
  | Argparse.A v => exists jv, Argparse.get_values v = Argparse.ok jv
  | _ => False
  end.

(** Two tokens that the loop cannot tell apart: the same token, or the
    same option written in two ways. *)
Inductive similar : Argparse.token -> Argparse.token -> Prop :=
| similar_same (t : Argparse.token) : similar t t
| similar_option (s s' : string) (a : Argparse.Action) (os : string)
    (e : option string) :
    similar (Argparse.O s (Some a, os, e)) (Argparse.O s' (Some a, os, e)).

(** Two turns of the loop that end alike. *)
Definition alike
    (r r' : Argparse.result (Argparse.state * list Argparse.token)) : Prop :=
  match r, r' with
  | Argparse.ok (st, rest), Argparse.ok (st', rest') =>
      st = st' /\ Forall2 similar rest rest'
  | Argparse.usage_error e, Argparse.usage_error e' => e = e'
  | Argparse.help_exit, Argparse.help_exit => True
  | _, _ => False
  end.

(** [needle in hay] for strings. *)
Fixpoint occurs (needle hay : string) : bool :=
  String.prefix needle hay
  || match hay with
     | String _ hay' => occurs needle hay'
     | EmptyString => false
     end.

(** A command as a line of the reference block: three spaces, the tokens
    joined by spaces, the end of the line. *)
Definition reference_line (command : list string) : string :=
  ("   " ++ Python.join " " command ++ String "010" EmptyString)%string.

(** The token of a flag written in full. *)
Definition flag_token (s : string) (a : Argparse.Action) : Argparse.token :=
  Argparse.O s (Some a, s, None).

(* ================================================================= *)
(** ** Facts about the builtins *)

Section PythonFacts.

Import Python.

Lemma digit_string_of_uint (u : uint) :
  u <> Nil ->
  exists c s, NilEmpty.string_of_uint u = String c s /\ isdigit c = true.
Proof.
  destruct u; intros H; try congruence; simpl; eauto.
Qed.

Lemma int_digits_string_of_uint (u : uint) :
  int_digits (NilEmpty.string_of_uint u) = Some (u, EmptyString).
Proof.
  induction u; simpl; try rewrite IHu; reflexivity.
Qed.

Lemma int_unsigned_string_of_uint (u : uint) :
  u <> Nil ->
  int_unsigned (NilEmpty.string_of_uint u)
  = if (nb_digits u <=? int_max_str_digits)%nat then Some u else None.
Proof.
  intros Hu. unfold int_unsigned.
  pose proof (int_digits_string_of_uint u) as D.
  destruct (digit_string_of_uint u Hu) as (c & s & E & Hc).
  rewrite E in *. rewrite Hc, D. reflexivity.
Qed.

Lemma int_unsigned_limit (s : string) (u : uint) :
  int_unsigned s = Some u -> (nb_digits u <= int_max_str_digits)%nat.
Proof.
  unfold int_unsigned. destruct s as [|c s]; [discriminate|].
  destruct (isdigit c); [|discriminate].
  destruct (int_digits (String c s)) as [[u' rest]|]; [|discriminate].
  destruct (Nat.leb_spec (nb_digits u') int_max_str_digits); [|discriminate].
  destruct (all_space rest); [|discriminate]. now intros [= <-].
Qed.

(** The value of a numeral lies between the powers of ten that its number
    of digits gives. *)
Lemma of_uint_acc_bounds (d : uint) :
  forall acc,
    Z.pos acc * 10 ^ Z.of_nat (nb_digits d) <= Z.pos (Pos.of_uint_acc d acc)
    /\ Z.pos (Pos.of_uint_acc d acc)
       < (Z.pos acc + 1) * 10 ^ Z.of_nat (nb_digits d).
Proof.
  induction d as [|d IH|d IH|d IH|d IH|d IH|d IH|d IH|d IH|d IH|d IH];
    intros acc; cbn [nb_digits Pos.of_uint_acc];
    [ cbn; lia | .. ];
    rewrite Nat2Z.inj_succ, Z.pow_succ_r by lia;
    match goal with
    | |- context [Pos.of_uint_acc d ?a] => specialize (IH a)
    end;
    pose proof (Z.pow_pos_nonneg 10 (Z.of_nat (nb_digits d))
                  ltac:(lia) ltac:(lia));
    nia.
Qed.

Lemma of_uint_upper (d : uint) :
  Z.of_N (Pos.of_uint d) < 10 ^ Z.of_nat (nb_digits d).
Proof.
  induction d as [|d IH|d IH|d IH|d IH|d IH|d IH|d IH|d IH|d IH|d IH];
    cbn [nb_digits Pos.of_uint];
    [ cbn; lia | .. ];
    rewrite Nat2Z.inj_succ, Z.pow_succ_r by lia;
    pose proof (Z.pow_pos_nonneg 10 (Z.of_nat (nb_digits d))
                  ltac:(lia) ltac:(lia));
    [ lia | .. ];
    match goal with
    | |- context [Pos.of_uint_acc d ?a] =>
        pose proof (of_uint_acc_bounds d a)
    end; cbn [Z.of_N]; nia.
Qed.

Lemma of_uint_lower (d : uint) :
  d <> Nil -> nzhead d = d ->
  10 ^ Z.of_nat (nb_digits d) <= 10 * Z.of_N (Pos.of_uint d).
Proof.
  intros N H.
  destruct d as [|d|d|d|d|d|d|d|d|d|d]; [contradiction | ..];
    cbn [nb_digits Pos.of_uint];
    [ exfalso; cbn [nzhead] in H;
      pose proof (DecimalFacts.nb_digits_nzhead d) as L; rewrite H in L; cbn in L; lia
    | .. ];
    rewrite Nat2Z.inj_succ, Z.pow_succ_r by lia;
    pose proof (Z.pow_pos_nonneg 10 (Z.of_nat (nb_digits d))
                  ltac:(lia) ltac:(lia));
    match goal with
    | |- context [Pos.of_uint_acc d ?a] =>
        pose proof (of_uint_acc_bounds d a)
    end; cbn [Z.of_N]; nia.
Qed.

Lemma to_uint_nzhead (p : positive) : nzhead (Pos.to_uint p) = Pos.to_uint p.
Proof.
  pose proof (Unsigned.to_of (Pos.to_uint p)) as T.
  rewrite Unsigned.of_to in T. cbn [N.to_uint] in T.
  unfold unorm in T.
  destruct (nzhead (Pos.to_uint p)) eqn:E; try congruence.
  exfalso. exact (Unsigned.to_uint_nonzero p T).
Qed.

(** A positive number has at most [k] digits when it is below the [k]-th
    power of ten, and only then. *)
Lemma nb_digits_to_uint (p : positive) (k : nat) :
  (nb_digits (Pos.to_uint p) <= k)%nat <-> Z.pos p < 10 ^ Z.of_nat k.
Proof.
  pose proof (of_uint_upper (Pos.to_uint p)) as U.
  pose proof (of_uint_lower (Pos.to_uint p) (Unsigned.to_uint_nonnil p)
                (to_uint_nzhead p)) as L.
  rewrite Unsigned.of_to in U, L. cbn [Z.of_N] in U, L.
  split; intros H.
  - eapply Z.lt_le_trans; [exact U|].
    apply Z.pow_le_mono_r; lia.
  - assert (Q : 10 ^ Z.of_nat (nb_digits (Pos.to_uint p))
                < 10 ^ Z.of_nat (S k)).
    { rewrite (Nat2Z.inj_succ k), Z.pow_succ_r by lia. lia. }
    apply Z.pow_lt_mono_r_iff in Q; lia.
Qed.

Lemma limit_power : 10 ^ 4300 = 10 ^ Z.of_nat int_max_str_digits.
Proof. reflexivity. Qed.

Lemma to_int_cases (n : Z) :
  exists u, u <> Nil /\ (Z.to_int n = Pos u \/ Z.to_int n = Neg u).
Proof.
  destruct n as [|p|p]; simpl.
  - exists (D0 Nil). split; [discriminate | now left].
  - exists (Pos.to_uint p). split; [apply Unsigned.to_uint_nonnil | now left].
  - exists (Pos.to_uint p). split; [apply Unsigned.to_uint_nonnil | now right].
Qed.

Lemma string_of_uint_nonnil (u : uint) :
  u <> Nil -> NilZero.string_of_uint u = NilEmpty.string_of_uint u.
Proof. destruct u; congruence || reflexivity. Qed.

Lemma int_digit_first (c : ascii) (s : string) :
  isdigit c = true ->
  int (String c s) =
  match int_unsigned (String c s) with
  | Some u => Some (Z.of_int (Pos u))
  | None => None
  end.
Proof.
  intros H. unfold int.
  destruct c as [[] [] [] [] [] [] [] []]; try discriminate; reflexivity.
Qed.

Lemma int_minus (s : string) :
  int (String "-" s) =
  match int_unsigned s with
  | Some u => Some (Z.of_int (Neg u))
  | None => None
  end.
Proof. reflexivity. Qed.

(** The numeral of an integer has no more digits than the limit when the
    integer is below the power of ten of the limit, and only then. *)
Lemma to_int_limit (n : Z) :
  exists u,
    u <> Nil /\ (Z.to_int n = Pos u \/ Z.to_int n = Neg u)
    /\ (nb_digits u <=? int_max_str_digits)%nat = (Z.abs n <? 10 ^ 4300).
Proof.
  rewrite limit_power.
  destruct n as [|p|p]; cbn [Z.to_int Z.abs].
  - exists (D0 Nil). split; [discriminate | split; [now left | reflexivity]].
  - exists (Pos.to_uint p).
    split; [apply Unsigned.to_uint_nonnil | split; [now left|]].
    apply eq_true_iff_eq.
    rewrite Nat.leb_le, Z.ltb_lt. apply nb_digits_to_uint.
  - exists (Pos.to_uint p).
    split; [apply Unsigned.to_uint_nonnil | split; [now right|]].
    apply eq_true_iff_eq.
    rewrite Nat.leb_le, Z.ltb_lt. apply nb_digits_to_uint.
Qed.

(** [int(str(n))]: [n] again up to the limit, [ValueError] beyond. *)
Lemma int_str_limit (n : Z) :
  int (str n) = if Z.abs n <? 10 ^ 4300 then Some n else None.
Proof.
  unfold str. destruct (to_int_limit n) as (u & Hu & [E | E] & <-).
  - rewrite E. cbn [NilZero.string_of_int].
    rewrite string_of_uint_nonnil by assumption.
    pose proof (int_unsigned_string_of_uint u Hu) as U.
    destruct (digit_string_of_uint u Hu) as (c & s & Es & Hc).
    rewrite Es in *. rewrite int_digit_first, U by assumption.
    destruct (nb_digits u <=? int_max_str_digits)%nat; [|reflexivity].
    rewrite <- E, of_to. reflexivity.
  - rewrite E. cbn [NilZero.string_of_int].
    rewrite string_of_uint_nonnil, int_minus by assumption.
    rewrite int_unsigned_string_of_uint by assumption.
    destruct (nb_digits u <=? int_max_str_digits)%nat; [|reflexivity].
    rewrite <- E, of_to. reflexivity.
Qed.

(** [int(str(n)) == n] for an integer within the limit. *)
Lemma int_str (n : Z) : Z.abs n < 10 ^ 4300 -> int (str n) = Some n.
Proof.
  intros H. rewrite int_str_limit. apply Z.ltb_lt in H. now rewrite H.
Qed.

(** What [int] reads is within the limit. *)
Lemma int_within_limit (s : string) (n : Z) :
  int s = Some n -> Z.abs n < 10 ^ 4300.
Proof.
  assert (B : forall u, (nb_digits u <= int_max_str_digits)%nat ->
                        Z.of_N (Pos.of_uint u) < 10 ^ 4300).
  { intros u L. rewrite limit_power.
    eapply Z.lt_le_trans; [apply of_uint_upper|].
    apply Z.pow_le_mono_r; lia. }
  unfold int. destruct (lstrip s) as [|c t]; [discriminate|].
  destruct c as [[] [] [] [] [] [] [] []];
    (destruct (int_unsigned _) as [u|] eqn:E; [|discriminate]);
    intros [= <-]; apply int_unsigned_limit in E; apply B in E;
    unfold Z.of_int, Z.of_uint;
    generalize dependent (10 ^ 4300); intros; lia.
Qed.

End PythonFacts.

(* ================================================================= *)
(** ** Facts about strings *)

Lemma split1_spec (c : ascii) (s h t : string) :
  Python.split1 c s = Some (h, t) -> s = (h ++ String c t)%string.
Proof.
  revert h t. induction s as [|a s IH]; intros h t; simpl; [discriminate|].
  destruct (Ascii.eqb_spec a c) as [->|N].
  - intros [= <- <-]. reflexivity.
  - destruct (Python.split1 c s) as [[h' t']|]; [|discriminate].
    intros [= <- <-]. simpl. now rewrite (IH h' t').
Qed.

Ltac table_cases H :=
  simpl in H;
  repeat match type of H with _ \/ _ => destruct H as [H|H] end;
  [ inversion H; subst; clear H .. | contradiction ].

Lemma endswith_refl (s : string) : endswith s s = true.
Proof. destruct s; simpl; rewrite ?String.eqb_refl, ?Ascii.eqb_refl; reflexivity. Qed.

Lemma endswith_cons (c : ascii) (s x : string) :
  endswith s x = true -> endswith (String c s) x = true.
Proof.
  intros H. change (endswith (String c s) x) with
      (String.eqb (String c s) x || endswith s x).
  rewrite H. apply orb_true_r.
Qed.

Lemma prefix_cons (a b : ascii) (s t : string) :
  String.prefix (String a s) (String b t) =
  if Ascii.eqb a b then String.prefix s t else false.
Proof.
  simpl. destruct (ascii_dec a b) as [->|N].
  - rewrite ?Ascii.eqb_refl; try reflexivity.
  - destruct (Ascii.eqb_spec a b); [contradiction | reflexivity].
Qed.

Lemma prefix_nil_r (a : ascii) (s : string) :
  String.prefix (String a s) EmptyString = false.
Proof. reflexivity. Qed.

Lemma prefix_nil_l (s : string) : String.prefix EmptyString s = true.
Proof. destruct s; reflexivity. Qed.

Lemma string_eqb_cons (a b : ascii) (s t : string) :
  String.eqb (String a s) (String b t) =
  if Ascii.eqb b a then String.eqb s t else false.
Proof. simpl. now rewrite Ascii.eqb_sym. Qed.

Ltac prefix_simpl :=
  unfold Python.startswith in *;
  repeat (rewrite ?prefix_cons, ?prefix_nil_l, ?prefix_nil_r in *;
          cbn [Ascii.eqb Bool.eqb andb String.append] in * ).

Lemma endswith_split (p : string) (c : ascii) (x : string) :
  endswith (p ++ String c x) x = true.
Proof.
  induction p as [|c' p IH]; cbn [String.append].
  - apply endswith_cons, endswith_refl.
  - now apply endswith_cons.
Qed.

(* ================================================================= *)
(** ** Facts about the parser: one token *)

Section TokenFacts.

Import Argparse.

Lemma lookup_In (s : string) (a : Action) (d : list (string * Action)) :
  lookup s d = Some a -> In (s, a) d.
Proof.
  induction d as [|[k b] d IH]; simpl; [discriminate|].
  destruct (String.eqb_spec s k) as [->|N].
  - intros [= ->]. now left.
  - intros H. right. auto.
Qed.

Lemma registered_In (os : string) (a : Action) :
  In (os, a) option_string_actions -> lookup os option_string_actions = Some a.
Proof.
  simpl. intros H.
  repeat (destruct H as [[= <- <-] | H]; [reflexivity|]). contradiction.
Qed.

Lemma long_tuples (p' : string) (ex : option string) oa os e :
  flat_map (fun '(os0, a) =>
              if Python.startswith os0 (String "-" (String "-" p'))
              then [(Some a, os0, ex)] else [])
           option_string_actions = [(oa, os, e)] ->
  exists a c2 p'', oa = Some a /\ In (os, a) option_string_actions
    /\ p' = String c2 p'' /\ key os = String "-" (String "-" (String c2 EmptyString))
    /\ e = ex.
Proof.
  destruct p' as [|c2 p''].
  - simpl. discriminate.
  - intros H.
    assert (I : In (oa, os, e)
                  (flat_map (fun '(os0, a) =>
                     if Python.startswith os0 (String "-" (String "-" (String c2 p'')))
                     then [(Some a, os0, ex)] else [])
                  option_string_actions)) by (rewrite H; now left).
    apply in_flat_map in I as ((os0 & a0) & Hin & Ht).
    table_cases Hin; prefix_simpl.
    all: try contradiction.
    all: match type of Ht with
         | In _ (if (if (?x =? ?c)%char then _ else _) then _ else _) =>
             destruct (Ascii.eqb_spec x c) as [->|]; [|contradiction]
         end.
    all: match type of Ht with
         | In _ (if ?b then _ else _) => destruct b; [|contradiction]
         end.
    all: destruct Ht as [[= <- <- <-]|[]].
    all: eexists _, _, _; repeat split; simpl; auto 10.
Qed.

Lemma short_tuples (c1 : ascii) (rest : string) oa os e :
  c1 <> "-"%char ->
  flat_map (fun '(os0, a) =>
              if String.eqb os0 (String "-" (String c1 EmptyString))
              then [(Some a, os0, Some rest)]
              else if Python.startswith os0 (String "-" (String c1 rest))
              then [(Some a, os0, None)] else [])
           option_string_actions = [(oa, os, e)] ->
  exists a, oa = Some a /\ In (os, a) option_string_actions
    /\ key os = String "-" (String c1 EmptyString)
    /\ (e = Some rest \/ e = None).
Proof.
  intros N H.
  match type of H with ?l = _ =>
    assert (I : In (oa, os, e) l) by (rewrite H; now left) end.
  apply in_flat_map in I as ((os0 & a0) & Hin & Ht).
  table_cases Hin; prefix_simpl; rewrite ?string_eqb_cons in Ht;
    cbn [String.eqb Ascii.eqb Bool.eqb] in Ht.
  all: try contradiction.
  all: match type of Ht with
       | context [(?x =? ?c)%char] =>
           destruct (Ascii.eqb_spec x c) as [->|]
       end; try congruence; try contradiction.
  all: repeat match type of Ht with
       | context [if ?b then _ else _] => destruct b
       end; try contradiction.
  all: destruct Ht as [[= <- <- <-]|[]].
  all: eexists; repeat split; simpl; auto 10.
Qed.

Lemma get_option_tuples_single (c1 : ascii) (rest : string) oa os e :
  get_option_tuples (String "-" (String c1 rest)) = Some [(oa, os, e)] ->
  exists a, oa = Some a /\ In (os, a) option_string_actions
    /\ Python.startswith (String "-" (String c1 rest)) (key os) = true
    /\ (forall x, e = Some x -> endswith (String "-" (String c1 rest)) x = true).
Proof.
  unfold get_option_tuples.
  destruct (Ascii.eqb_spec c1 "-") as [->|N].
  - cbn [Python.split1 Ascii.eqb Bool.eqb].
    destruct (Python.split1 "=" rest) as [[h t]|] eqn:Sp.
    + intros [= H]. apply long_tuples in H as (a & c2 & p'' & -> & I & -> & K & ->).
      exists a. repeat split; trivial.
      * rewrite K. apply split1_spec in Sp. rewrite Sp. prefix_simpl.
        rewrite ?Ascii.eqb_refl; try reflexivity.
      * intros x [= <-]. apply split1_spec in Sp. rewrite Sp.
        do 2 apply endswith_cons. apply endswith_split.
    + intros [= H]. apply long_tuples in H as (a & c2 & p'' & -> & I & -> & K & ->).
      exists a. repeat split; trivial; [|discriminate].
      rewrite K. prefix_simpl. rewrite ?Ascii.eqb_refl; try reflexivity.
  - intros [= H]. apply short_tuples in H as (a & -> & I & K & E); [|assumption].
    exists a. repeat split; trivial.
    + rewrite K. prefix_simpl. rewrite ?Ascii.eqb_refl; try reflexivity.
    + intros x ->. destruct E as [[= <-]|]; [|discriminate].
      do 2 apply endswith_cons. apply endswith_refl.
Qed.

Lemma parse_optional_spec (s : string) (a : Action) (os : string)
    (e : option string) :
  parse_optional s = optional (Some a, os, e) ->
  lookup os option_string_actions = Some a
  /\ Python.startswith s (key os) = true
  /\ (forall x, e = Some x -> endswith s x = true).
Proof.
  unfold parse_optional.
  destruct s as [|c0 tail]; [discriminate|].
  destruct (Ascii.eqb_spec c0 "-") as [->|N]; [|discriminate]. cbn [negb].
  destruct (lookup (String "-" tail) option_string_actions) as [a0|] eqn:L.
  { intros [= -> <- <-]. repeat split; [exact L | | discriminate].
    apply lookup_In in L. table_cases L; reflexivity. }
  destruct tail as [|c1 rest]; [discriminate|].
  assert (G : match get_option_tuples (String "-" (String c1 rest)) with
  | Some [] =>
      if negative_number (String "-" (String c1 rest))
      then positional
      else
       if Python.contains " " (String "-" (String c1 rest))
       then positional
       else optional (None, String "-" (String c1 rest), None)
  | Some [t] => optional t
  | Some (t :: t2 :: ts) =>
      failed
        (ambiguous_option (String "-" (String c1 rest))
           (map (fun t0 => snd (fst t0)) (t :: t2 :: ts)))
  | None => failed (unexpected_option_string (String "-" (String c1 rest)))
  end = optional (Some a, os, e) ->
  lookup os option_string_actions = Some a /\
  Python.startswith (String "-" (String c1 rest)) (key os) = true /\
  (forall x, e = Some x -> endswith (String "-" (String c1 rest)) x = true)).
  { destruct (get_option_tuples (String "-" (String c1 rest))) as [[|t [|t2 ts]]|] eqn:G;
      try discriminate.
    - destruct (negative_number _); [discriminate|].
      destruct (Python.contains _ _); discriminate.
    - intros [= ->].
      apply get_option_tuples_single in G as (a' & [= <-] & I & K & E).
      repeat split; trivial. now apply registered_In. }
  destruct (Python.split1 "=" (String "-" (String c1 rest))) as [[p x]|] eqn:Sp;
    [|exact G].
  destruct (lookup p option_string_actions) as [a1|] eqn:L1; [|exact G].
  intros [= -> <- <-]. apply split1_spec in Sp. rewrite Sp.
  repeat split; [exact L1 | |].
  - apply lookup_In in L1. table_cases L1; reflexivity.
  - intros y [= <-]. apply endswith_split.
Qed.

Lemma digits_string_of_uint (u : Decimal.uint) :
  digits (DecimalString.NilEmpty.string_of_uint u) = true.
Proof. induction u; simpl; trivial. Qed.

Lemma isdigit_cases (c : ascii) :
  Python.isdigit c = true ->
  In c ["0"; "1"; "2"; "3"; "4"; "5"; "6"; "7"; "8"; "9"]%char.
Proof.
  destruct c as [[] [] [] [] [] [] [] []]; try discriminate; intros _; simpl; tauto.
Qed.

Lemma digits_split1 (c : ascii) (s : string) :
  Python.isdigit c = false -> digits s = true -> Python.split1 c s = None.
Proof.
  intros Hc. induction s as [|a s IH]; simpl; [reflexivity|].
  intros H. apply andb_prop in H as [Ha Hs].
  destruct (Ascii.eqb_spec a c) as [->|]; [congruence|].
  now rewrite IH.
Qed.

Lemma digits_before_final_newline (s : string) :
  digits s = true -> before_final_newline s = s.
Proof.
  induction s as [|a s IH]; simpl; [reflexivity|].
  intros H. apply andb_prop in H as [Ha Hs]. rewrite IH by assumption.
  destruct s; [|destruct a as [[] [] [] [] [] [] [] []]; reflexivity].
  destruct a as [[] [] [] [] [] [] [] []]; try discriminate; reflexivity.
Qed.

Lemma digits_nonempty (c : ascii) (s : string) :
  digits (String c s) = true -> nonempty_digits (String c s) = true.
Proof.
  revert c. induction s as [|a s IH]; intros c H; simpl in *.
  - now apply andb_prop in H.
  - apply andb_prop in H as [Hc H]. rewrite Hc. cbn [andb]. now apply IH.
Qed.

Lemma parse_optional_minus_digits (c : ascii) (r : string) :
  digits (String c r) = true ->
  parse_optional (String "-" (String c r)) = positional.
Proof.
  intros D. pose proof D as D'. simpl in D'. apply andb_prop in D' as [Hc Hr].
  assert (Sp : Python.split1 "=" (String "-" (String c r)) = None).
  { apply (digits_split1 "=" (String c r)) in D; [|reflexivity].
    change (Python.split1 "=" (String "-" (String c r)))
      with (match Python.split1 "=" (String c r) with
            | Some (h, t) => Some (String "-" h, t)
            | None => None
            end).
    now rewrite D. }
  assert (NN : negative_number (String "-" (String c r)) = true).
  { unfold negative_number.
    assert (B : before_final_newline (String "-" (String c r))
                = String "-" (String c r)).
    { change (before_final_newline (String "-" (String c r)))
        with (String "-" (before_final_newline (String c r))).
      now rewrite digits_before_final_newline. }
    rewrite B. now rewrite digits_nonempty. }
  unfold parse_optional. cbn [negb Ascii.eqb Bool.eqb]. rewrite Sp, NN.
  apply isdigit_cases in Hc. simpl in Hc.
  repeat (destruct Hc as [<-|Hc]; [reflexivity|]). contradiction.
Qed.

Lemma parse_optional_str (n : Z) : parse_optional (Python.str n) = positional.
Proof.
  unfold Python.str. destruct (to_int_cases n) as (u & Hu & [E | E]); rewrite E;
    cbn [DecimalString.NilZero.string_of_int];
    rewrite string_of_uint_nonnil by assumption;
    pose proof (digits_string_of_uint u) as D;
    destruct (digit_string_of_uint u Hu) as (c & s & Es & Hc);
    rewrite Es in *.
  - apply isdigit_cases in Hc. simpl in Hc.
    repeat (destruct Hc as [<-|Hc]; [reflexivity|]). contradiction.
  - now apply parse_optional_minus_digits.
Qed.

Lemma consume_step (st : state) (t : token) (rest : list token) :
  consume st (t :: rest) =
  Argparse.bind (step st t rest) (fun '(st', r) => consume st' r).
Proof.
  destruct t as [s | s [[[a|] os] e] | ]; try reflexivity.
  cbn [consume step].
  destruct (action_tuples a os e rest) as [[tuples n] | |]; try reflexivity.
  cbn [Argparse.bind].
  destruct (take_actions tuples st); try reflexivity.
  cbn [Argparse.bind]. destruct n, rest; reflexivity.
Qed.

Lemma explicit_chain_help (os x : string) (rest : list token) tuples n :
  explicit_chain help os x rest = ok (tuples, n) ->
  exists tl, tuples = (help, []) :: tl.
Proof.
  destruct x as [|e0 e']; cbn [explicit_chain nargs].
  - destruct os as [|? [|]]; discriminate.
  - destruct os as [|c0 [|c1 os']]; try discriminate.
    destruct (negb (Ascii.eqb c1 "-")); try discriminate.
    destruct (lookup _ _) as [a'|]; try discriminate.
    match goal with |- context [Argparse.bind ?m _] => destruct m as [[tl k]| |] end;
      cbn [Argparse.bind]; try discriminate.
    intros [= <- <-]. eauto.
Qed.

Lemma check_conflicts_free (a : Action) (st : state) :
  action_conflicts a = [] ->
  check_conflicts a st =
  ok {| namespace := namespace st;
        seen_non_default_actions := a :: seen_non_default_actions st;
        extras := extras st |}.
Proof. intros H. unfold check_conflicts. now rewrite H. Qed.

(** A token that selects the help action never lets the loop go on. *)
Lemma step_help (st : state) (s os : string) (e : option string)
    (rest : list token) :
  step st (O s (Some help, os, e)) rest = help_exit
  \/ exists err, step st (O s (Some help, os, e)) rest = usage_error err.
Proof.
  cbn [step].
  destruct (action_tuples help os e rest) as [[tuples n]| err |] eqn:T;
    cbn [Argparse.bind]; eauto.
  left.
  assert (exists tl, tuples = (help, []) :: tl) as (tl & ->).
  { destruct e as [x|]; cbn [action_tuples] in T.
    - eapply explicit_chain_help; eassumption.
    - cbn in T. injection T as <- <-. eauto. }
  reflexivity.
Qed.

(** What one turn does on a registered option that is not the help. *)
Lemma step_option (st : state) (s os : string) (a : Action)
    (e : option string) (rest : list token) :
  lookup os option_string_actions = Some a -> a <> help ->
  step st (O s (Some a, os, e)) rest =
  match a, e with
  | jobs, Some x =>
      Argparse.bind (take_action jobs [x] st) (fun st' => ok (st', rest))
  | jobs, None =>
      match rest with
      | A v :: rest' =>
          Argparse.bind (take_action jobs [v] st) (fun st' => ok (st', rest'))
      | _ => usage_error (expected_one_argument jobs)
      end
  | _, None => Argparse.bind (take_action a [] st) (fun st' => ok (st', rest))
  | _, Some x => usage_error (ignored_explicit_argument a x)
  end.
Proof.
  intros L Ha. apply lookup_In in L.
  table_cases L; try congruence; destruct e as [x|];
    cbn [step action_tuples explicit_chain nargs match_argument Argparse.bind
         take_actions firstn map arg_string_of Ascii.eqb Bool.eqb negb].
  all: try (destruct x; reflexivity).
  all: try (destruct (take_action _ _ st); reflexivity).
  all: try (destruct x;
            cbn [explicit_chain nargs Argparse.bind take_actions];
            destruct (take_action _ _ st); reflexivity).
  all: destruct rest as [|[v| |] rest']; try reflexivity;
       cbn [Argparse.bind take_actions firstn map arg_string_of];
       destruct (take_action _ _ st); reflexivity.
Qed.

End TokenFacts.

(* ================================================================= *)
(** ** Facts about the parser: the loop *)

Section LoopFacts.

Import Argparse.

Lemma take_action_flag (a : Action) (st : state) :
  a <> help -> a <> jobs ->
  take_action a [] st <> help_exit.
Proof.
  intros H J. destruct a; try congruence; cbn [take_action];
    unfold check_conflicts;
    match goal with |- context [find ?f ?l] => destruct (find f l) end;
    discriminate.
Qed.

Lemma take_action_jobs_not_help (x : string) (st : state) :
  take_action jobs [x] st <> help_exit.
Proof.
  cbn [take_action]. destruct (get_values x) as [v| |] eqn:G; cbn [Argparse.bind].
  - destruct (is_not_default v); [rewrite check_conflicts_free by reflexivity|];
      discriminate.
  - discriminate.
  - unfold get_values in G. destruct (String.eqb x "--"); [discriminate|].
    destruct (Python.int x); discriminate.
Qed.

(** A turn on a registered token that is not the help does not end in the
    help. *)
Lemma step_not_help (st : state) (t : token) (rest : list token) :
  registered t -> head_action t <> Some help -> step st t rest <> help_exit.
Proof.
  destruct t as [s | s [[[a|] os] e] | ]; try discriminate.
  cbn [registered head_action]. intros R H.
  assert (Ha : a <> help) by congruence.
  rewrite (step_option st s os a e rest R Ha).
  destruct a; try congruence; destruct e as [x|]; try discriminate.
  all: try (pose proof (take_action_flag _ st Ha ltac:(discriminate)) as F;
            destruct (take_action _ [] st); [discriminate..|congruence]).
  - pose proof (take_action_jobs_not_help x st) as F.
    destruct (take_action jobs [x] st); [discriminate..|congruence].
  - destruct rest as [|[v| |] rest']; try discriminate.
    pose proof (take_action_jobs_not_help v st) as F.
    destruct (take_action jobs [v] st); [discriminate..|congruence].
Qed.

(** A turn that went well is one of the four of [took]. *)
Lemma step_ok_inv (st : state) (t : token) (rest : list token)
    (st1 : state) (rest1 : list token) :
  registered t -> step st t rest = ok (st1, rest1) -> took st t rest st1 rest1.
Proof.
  destruct t as [s | s [[[a|] os] e] | ].
  - intros _ [= <- <-]. now apply (took_extra st (A s)).
  - cbn [registered]. intros R.
    destruct (Action_eqb a help) eqn:E.
    + destruct a; try discriminate.
      destruct (step_help st s os e rest) as [-> | (err & ->)]; discriminate.
    + assert (Ha : a <> help) by (intros ->; discriminate).
      rewrite (step_option st s os a e rest R Ha).
      destruct a; try congruence; destruct e as [x|]; try discriminate.
      all: try (destruct (take_action _ [] st) as [st'| |] eqn:T; try discriminate;
                intros [= <- <-]; apply took_flag; trivial; discriminate).
      * destruct (take_action jobs [x] st) as [st'| |] eqn:T; try discriminate.
        intros [= <- <-]. now apply took_jobs_attached.
      * destruct rest as [|[v| |] rest']; try discriminate.
        destruct (take_action jobs [v] st) as [st'| |] eqn:T; try discriminate.
        intros [= <- <-]. now apply took_jobs_next.
  - intros _ [= <- <-]. now apply (took_extra st (O s (None, os, e))).
  - intros _ [= <- <-]. now apply (took_extra st dashes).
Qed.

(** Induction on the tokens, two at a time when the first takes the next. *)
Lemma tokens_ind2 (P : list token -> Prop) :
  P [] ->
  (forall t rest,
      P rest -> (forall v rest', rest = A v :: rest' -> P rest') ->
      P (t :: rest)) ->
  forall l, P l.
Proof.
  intros H0 HS l.
  enough (P l /\ forall v l', l = A v :: l' -> P l') by tauto.
  induction l as [|t l [IH1 IH2]].
  - split; [exact H0 | discriminate].
  - split.
    + apply HS; assumption.
    + intros v l' [= -> ->]. exact IH1.
Qed.

Lemma seen_cons (c a : Action) (st st1 : state) :
  seen_non_default_actions st1 = a :: seen_non_default_actions st ->
  seen c st1 = Action_eqb c a || seen c st.
Proof. unfold seen. intros ->. reflexivity. Qed.

(** What a flag that was accepted did. *)
Lemma take_action_flag_inv (a : Action) (st st1 : state) :
  a <> help -> a <> jobs -> take_action a [] st = ok st1 ->
  seen_non_default_actions st1 = a :: seen_non_default_actions st
  /\ extras st1 = extras st
  /\ (forall c, In c (action_conflicts a) -> seen c st = false)
  /\ jobs_count (namespace st1) = jobs_count (namespace st)
  /\ info_flag (namespace st1) = Action_eqb a info || info_flag (namespace st).
Proof.
  intros H J.
  destruct a; try congruence; cbn [take_action]; unfold check_conflicts;
    cbn [action_conflicts find].
  3,4: intros [= <-]; cbn; repeat split; tauto.
  all: match goal with |- context [seen ?c ?s] => destruct (seen c s) eqn:E end;
    cbn [Argparse.bind]; [discriminate|].
  all: intros [= <-]; cbn; repeat split; trivial.
  all: intros c [<-|[]]; exact E.
Qed.

(** What [--jobs] did when its value was accepted. *)
Lemma take_action_jobs_inv (x : string) (st st1 : state) :
  take_action jobs [x] st = ok st1 ->
  get_values x = ok (jobs_count (namespace st1))
  /\ extras st1 = extras st
  /\ info_flag (namespace st1) = info_flag (namespace st)
  /\ (forall c, c <> jobs -> seen c st1 = seen c st).
Proof.
  cbn [take_action]. destruct (get_values x) as [v| |]; try discriminate.
  cbn [Argparse.bind]. destruct (is_not_default v).
  - rewrite check_conflicts_free by reflexivity. cbn [Argparse.bind].
    intros [= <-]. cbn. repeat split.
    intros c Hc. unfold seen. cbn. destruct c; congruence || reflexivity.
  - cbn [Argparse.bind]. intros [= <-]. cbn. repeat split.
Qed.

Lemma took_extras (st : state) t rest st1 rest1 :
  took st t rest st1 rest1 -> extras st <> [] -> extras st1 <> [].
Proof.
  intros T H. destruct T as [t rest H0 | s os a rest st' Ha Hj T
                             | s os x rest st' T | s os v rest st' T].
  - cbn. destruct (extras st); [congruence | discriminate].
  - apply take_action_flag_inv in T as (_ & -> & _); trivial.
  - apply take_action_jobs_inv in T as (_ & -> & _); trivial.
  - apply take_action_jobs_inv in T as (_ & -> & _); trivial.
Qed.

Lemma took_extra_token (st : state) t rest st1 rest1 :
  took st t rest st1 rest1 -> head_action t = None -> extras st1 <> [].
Proof.
  intros T H. destruct T; try discriminate.
  cbn. destruct (extras st); discriminate.
Qed.

Lemma took_info (st : state) t rest st1 rest1 :
  took st t rest st1 rest1 ->
  info_flag (namespace st) = true -> info_flag (namespace st1) = true.
Proof.
  intros T H. destruct T as [t rest H0 | s os a rest st' Ha Hj T
                             | s os x rest st' T | s os v rest st' T].
  - exact H.
  - apply take_action_flag_inv in T as (_ & _ & _ & _ & ->); trivial.
    rewrite H. apply orb_true_r.
  - apply take_action_jobs_inv in T as (_ & _ & -> & _); trivial.
  - apply take_action_jobs_inv in T as (_ & _ & -> & _); trivial.
Qed.

Lemma took_info_token (st : state) t rest st1 rest1 :
  took st t rest st1 rest1 -> head_action t = Some info ->
  info_flag (namespace st1) = true.
Proof.
  intros T H. destruct T as [t rest H0 | s os a rest st' Ha Hj T
                             | s os x rest st' T | s os v rest st' T];
    cbn in H; try congruence.
  injection H as ->.
  apply take_action_flag_inv in T as (_ & _ & _ & _ & ->); trivial.
Qed.

Lemma took_seen (st : state) t rest st1 rest1 (c : Action) :
  took st t rest st1 rest1 -> c <> jobs ->
  seen c st = true -> seen c st1 = true.
Proof.
  intros T Hc H. destruct T as [t rest H0 | s os a rest st' Ha Hj T
                                | s os x rest st' T | s os v rest st' T].
  - exact H.
  - apply take_action_flag_inv in T as (E & _); trivial.
    rewrite (seen_cons c a st st' E), H. apply orb_true_r.
  - apply take_action_jobs_inv in T as (_ & _ & _ & E). now rewrite E.
  - apply take_action_jobs_inv in T as (_ & _ & _ & E). now rewrite E.
Qed.

Lemma took_seen_token (st : state) t rest st1 rest1 (a : Action) :
  took st t rest st1 rest1 -> head_action t = Some a -> a <> jobs ->
  seen a st1 = true.
Proof.
  intros T H Hj. destruct T as [t rest H0 | s os a' rest st' Ha Hj' T
                                | s os x rest st' T | s os v rest st' T];
    cbn in H; try congruence.
  injection H as ->.
  apply take_action_flag_inv in T as (E & _); trivial.
  rewrite (seen_cons a a st st' E). destruct a; reflexivity.
Qed.

Lemma took_exclusive (st : state) t rest st1 rest1 :
  took st t rest st1 rest1 -> exclusive st -> exclusive st1.
Proof.
  unfold exclusive.
  intros T X. destruct T as [t rest H0 | s os a rest st' Ha Hj T
                             | s os x rest st' T | s os v rest st' T].
  - exact X.
  - apply take_action_flag_inv in T as (E & _ & C & _); trivial.
    rewrite (seen_cons debug a st st' E), (seen_cons release a st st' E).
    destruct a; cbn [Action_eqb orb]; try exact X; try congruence.
    + intros _ R. specialize (C release (or_introl eq_refl)). congruence.
    + intros D _. specialize (C debug (or_introl eq_refl)). congruence.
  - apply take_action_jobs_inv in T as (_ & _ & _ & E).
    rewrite !E by discriminate. exact X.
  - apply take_action_jobs_inv in T as (_ & _ & _ & E).
    rewrite !E by discriminate. exact X.
Qed.

Lemma took_jobs_kept (st : state) t rest st1 rest1 :
  took st t rest st1 rest1 -> head_action t <> Some jobs ->
  jobs_count (namespace st1) = jobs_count (namespace st).
Proof.
  intros T H. destruct T as [t rest H0 | s os a rest st' Ha Hj T
                             | s os x rest st' T | s os v rest st' T];
    cbn in H; try congruence.
  - reflexivity.
  - apply take_action_flag_inv in T as (_ & _ & _ & -> & _); trivial.
Qed.

Lemma took_rest (st : state) t rest st1 rest1 :
  took st t rest st1 rest1 ->
  rest1 = rest \/ exists v, rest = A v :: rest1.
Proof. intros T. destruct T; eauto. Qed.

(** A property of the state that every accepted turn keeps is kept by the
    loop. *)
Lemma consume_invariant (Q : token -> Prop) (I : state -> Prop) :
  (forall st t rest st1 rest1,
      Q t -> Forall Q rest -> took st t rest st1 rest1 -> I st -> I st1) ->
  forall toks, Forall registered toks -> Forall Q toks ->
  forall st st', consume st toks = ok st' -> I st -> I st'.
Proof.
  intros K toks. pattern toks. apply tokens_ind2; clear toks.
  - intros _ _ st st' [= <-]. trivial.
  - intros t rest IH1 IH2 R F st st' C HI.
    inversion R as [|? ? Rt Rr]; subst. inversion F as [|? ? Ft Fr]; subst.
    rewrite consume_step in C.
    destruct (step st t rest) as [[st1 rest1]| |] eqn:S; try discriminate.
    cbn [Argparse.bind] in C. apply step_ok_inv in S; [|assumption].
    pose proof (K _ _ _ _ _ Ft Fr S HI) as HI1.
    destruct (took_rest _ _ _ _ _ S) as [-> | (v & ->)].
    + eapply IH1; eassumption.
    + inversion Rr; subst. inversion Fr; subst.
      eapply (IH2 v rest1 eq_refl); eassumption.
Qed.

Lemma consume_extras (toks : list token) (st st' : state) :
  Forall registered toks -> consume st toks = ok st' ->
  extras st <> [] -> extras st' <> [].
Proof.
  intros R. apply (consume_invariant (fun _ => True) (fun s => extras s <> [])); trivial.
  - intros ? ? ? ? ? _ _ T. eapply took_extras; eassumption.
  - apply Forall_forall. trivial.
Qed.

Lemma consume_info (toks : list token) (st st' : state) :
  Forall registered toks -> consume st toks = ok st' ->
  info_flag (namespace st) = true -> info_flag (namespace st') = true.
Proof.
  intros R.
  apply (consume_invariant (fun _ => True)
           (fun s => info_flag (namespace s) = true)); trivial.
  - intros ? ? ? ? ? _ _ T. eapply took_info; eassumption.
  - apply Forall_forall. trivial.
Qed.

(** Without a token for [--jobs], the job count stays. *)
Lemma consume_jobs_kept (toks : list token) (st st' : state) :
  Forall registered toks ->
  Forall (fun t => head_action t <> Some jobs) toks ->
  consume st toks = ok st' ->
  jobs_count (namespace st') = jobs_count (namespace st).
Proof.
  intros R F C.
  apply (consume_invariant (fun t => head_action t <> Some jobs)
           (fun s => jobs_count (namespace s) = jobs_count (namespace st))
           ) with (toks := toks) (st := st); trivial.
  intros ? ? ? ? ? Q _ T E. rewrite <- E. eapply took_jobs_kept; eassumption.
Qed.

(** The loop ends in the help only on a token that selects it. *)
Lemma consume_help_inv (toks : list token) :
  Forall registered toks ->
  forall st, consume st toks = help_exit ->
  Exists (fun t => head_action t = Some help) toks.
Proof.
  pattern toks. apply tokens_ind2; clear toks.
  - discriminate.
  - intros t rest IH1 IH2 R st C. inversion R as [|? ? Rt Rr]; subst.
    destruct (head_action t) as [[]|] eqn:H.
    1: now apply Exists_cons_hd.
    all: apply Exists_cons_tl.
    all: rewrite consume_step in C;
      destruct (step st t rest) as [[st1 rest1]| |] eqn:S; try discriminate;
      [ cbn [Argparse.bind] in C; apply step_ok_inv in S; [|assumption];
        destruct (took_rest _ _ _ _ _ S) as [-> | (v & ->)];
        [ eapply IH1; eassumption
        | inversion Rr; subst; apply Exists_cons_tl;
          eapply (IH2 v rest1 eq_refl); eassumption ]
      | exfalso; eapply step_not_help; [exact Rt| |exact S]; congruence ].
Qed.

(** In an accepted command line every token that is not an argument has
    its turn. *)
Lemma consume_reaches (pre : list token) (t : token) (rest0 : list token) :
  (forall v, t <> A v) ->
  Forall registered (pre ++ t :: rest0) ->
  forall st st', consume st (pre ++ t :: rest0) = ok st' ->
  exists st0 st1 rest1,
    took st0 t rest0 st1 rest1 /\ consume st1 rest1 = ok st'.
Proof.
  intros Ht. pattern pre. apply tokens_ind2; clear pre.
  - intros R st st' C. rewrite app_nil_l in R, C.
    inversion R as [|? ? Rt Rr]; subst.
    rewrite consume_step in C.
    destruct (step st t rest0) as [[st1 rest1]| |] eqn:S; try discriminate.
    apply step_ok_inv in S; [|assumption]. eauto.
  - intros u pre IH1 IH2 R st st' C. rewrite <- app_comm_cons in R, C.
    inversion R as [|? ? Ru Rr]; subst.
    rewrite consume_step in C.
    destruct (step st u (pre ++ t :: rest0)) as [[st1 rest1]| |] eqn:S;
      try discriminate.
    cbn [Argparse.bind] in C. apply step_ok_inv in S; [|assumption].
    destruct (took_rest _ _ _ _ _ S) as [-> | (v & E)].
    + eapply IH1; eassumption.
    + destruct pre as [|w pre'].
      * rewrite app_nil_l in E. injection E as E _. now apply Ht in E.
      * rewrite <- app_comm_cons in E, Rr. injection E as -> <-.
        inversion Rr; subst.
        eapply (IH2 v pre' eq_refl); eassumption.
Qed.

Lemma refused_cons (t : token) (tp : list token) (r : result state) :
  refused tp r -> refused (t :: tp) r.
Proof. destruct r; cbn; auto. Qed.

Lemma refused_step (st : state) (t : token) (tp rest : list token) :
  registered t -> step st t rest = help_exit -> refused (t :: tp) help_exit.
Proof.
  intros R S. cbn. destruct (head_action t) as [[]|] eqn:H.
  1: now apply Exists_cons_hd.
  all: exfalso; eapply step_not_help; [exact R| |exact S]; congruence.
Qed.

Lemma seen_next (a : Action) (st : state) t r st1 r1 (rest : list token) :
  took st t r st1 r1 -> a <> jobs ->
  seen a st = true \/ Exists (fun t => head_action t = Some a) (t :: rest) ->
  seen a st1 = true \/ Exists (fun t => head_action t = Some a) rest.
Proof.
  intros T Ha [H|H].
  - left. eapply took_seen; eassumption.
  - inversion H; subst; [left | now right].
    eapply took_seen_token; eassumption.
Qed.

(** Once both build types are among the tokens that will have their turn,
    the command line is not accepted, whatever follows. *)
Lemma consume_conflict (tp : list token) :
  Forall registered tp ->
  forall st tq, exclusive st ->
  seen debug st = true \/ Exists (fun t => head_action t = Some debug) tp ->
  seen release st = true \/ Exists (fun t => head_action t = Some release) tp ->
  refused tp (consume st (tp ++ tq)).
Proof.
  pattern tp. apply tokens_ind2; clear tp.
  - intros _ st tq X [D|D] [R|R]; try solve [inversion D | inversion R].
    exfalso. now apply X.
  - intros t rest IH1 IH2 R st tq X D L.
    inversion R as [|? ? Rt Rr]; subst.
    rewrite <- app_comm_cons, consume_step.
    destruct (step st t (rest ++ tq)) as [[st1 rest1]| |] eqn:S;
      cbn [Argparse.bind].
    2: exact I.
    2: eapply refused_step; eassumption.
    apply step_ok_inv in S; [|assumption].
    pose proof (took_exclusive _ _ _ _ _ S X) as X1.
    apply (seen_next debug _ _ _ _ _ rest S) in D; [|discriminate].
    apply (seen_next release _ _ _ _ _ rest S) in L; [|discriminate].
    apply refused_cons.
    destruct (took_rest _ _ _ _ _ S) as [-> | (v & E)].
    + now apply IH1.
    + destruct rest as [|w rest'].
      * exfalso. destruct D as [D|D]; [|inversion D].
        destruct L as [L|L]; [|inversion L]. now apply X1.
      * rewrite <- app_comm_cons in E. injection E as -> <-.
        inversion Rr; subst. apply refused_cons.
        apply (IH2 v rest' eq_refl); trivial.
        -- destruct D as [D|D]; [now left | right].
           inversion D; subst; [discriminate | assumption].
        -- destruct L as [L|L]; [now left | right].
           inversion L; subst; [discriminate | assumption].
Qed.

(** Before a token whose turn always fails, the command line is not
    accepted. *)
Lemma consume_stuck (tp : list token) (t : token) (rest : list token) :
  (forall v, t <> A v) ->
  (forall st1, exists e, step st1 t rest = usage_error e) ->
  Forall registered tp ->
  forall st, refused tp (consume st (tp ++ t :: rest)).
Proof.
  intros Ht Hs. pattern tp. apply tokens_ind2; clear tp.
  - intros _ st. rewrite app_nil_l, consume_step.
    destruct (Hs st) as (e & ->). exact I.
  - intros u tp IH1 IH2 R st. inversion R as [|? ? Ru Rr]; subst.
    rewrite <- app_comm_cons, consume_step.
    destruct (step st u (tp ++ t :: rest)) as [[st1 rest1]| |] eqn:S;
      cbn [Argparse.bind].
    2: exact I.
    2: eapply refused_step; eassumption.
    apply step_ok_inv in S; [|assumption].
    apply refused_cons.
    destruct (took_rest _ _ _ _ _ S) as [-> | (v & E)].
    + now apply IH1.
    + destruct tp as [|w tp'].
      * rewrite app_nil_l in E. injection E as E _. now apply Ht in E.
      * rewrite <- app_comm_cons in E. injection E as -> <-.
        inversion Rr; subst. apply refused_cons.
        now apply (IH2 v tp' eq_refl).
Qed.

End LoopFacts.

(* ================================================================= *)
(** ** Facts about the parser: the command line as tokens *)

Section ClassifyFacts.

Import Argparse.

Lemma parse_optional_help (s os : string) (e : option string) :
  parse_optional s = optional (Some help, os, e) -> mentions_help s = true.
Proof.
  intros H. apply parse_optional_spec in H as (L & K & _).
  apply lookup_In in L. unfold mentions_help.
  table_cases L; cbn [key] in K; rewrite K; auto using orb_true_r.
Qed.

Lemma parse_optional_jobs (s os : string) (e : option string) :
  parse_optional s = optional (Some jobs, os, e) -> mentions_jobs s = true.
Proof.
  intros H. apply parse_optional_spec in H as (L & K & _).
  apply lookup_In in L. unfold mentions_jobs.
  table_cases L; cbn [key] in K; rewrite K; auto using orb_true_r.
Qed.

Lemma classify_faithful (arg_strings : list string) (toks : list token) :
  classify arg_strings = ok toks -> Forall (faithful arg_strings) toks.
Proof.
  revert toks. induction arg_strings as [|s l IH]; intros toks; cbn [classify].
  - intros [= <-]. constructor.
  - assert (W : forall ts, Forall (faithful l) ts -> Forall (faithful (s :: l)) ts).
    { intros ts. apply Forall_impl. intros t [I F]. split; [now right | exact F]. }
    destruct (String.eqb_spec s "--") as [->|N].
    + intros [= <-]. constructor; [split; [now left | exact I]|].
      apply Forall_forall. intros t Ht. apply in_map_iff in Ht as (x & <- & Hx).
      split; [now right | exact I].
    + destruct (parse_optional s) as [|tu|e] eqn:P; try discriminate;
        destruct (classify l) as [ts| |]; try discriminate;
        intros [= <-]; (constructor; [|now apply W, IH]).
      * split; [now left | exact I].
      * split; [now left | now split].
Qed.

Lemma faithful_registered (l : list string) (t : token) :
  faithful l t -> registered t.
Proof.
  destruct t as [s|s [[[a|] os] e]|]; cbn; trivial.
  intros (_ & _ & P). now apply parse_optional_spec in P.
Qed.

Lemma classify_registered (arg_strings : list string) (toks : list token) :
  classify arg_strings = ok toks -> Forall registered toks.
Proof.
  intros C. apply classify_faithful in C.
  eapply Forall_impl; [|exact C]. apply faithful_registered.
Qed.

(** A token that selects the help was written with [-h] or [--h]. *)
Lemma classify_help (arg_strings : list string) (toks : list token) :
  classify arg_strings = ok toks ->
  Exists (fun t => head_action t = Some help) toks ->
  Exists (fun s => mentions_help s = true) arg_strings.
Proof.
  intros C E. apply classify_faithful in C.
  apply Exists_exists in E as (t & Ht & H).
  rewrite Forall_forall in C. destruct (C t Ht) as [I F].
  apply Exists_exists. exists (arg_string_of t). split; [exact I|].
  destruct t as [s|s [[oa os] e]|]; cbn in H; try discriminate.
  subst oa. destruct F as [_ P]. now apply parse_optional_help in P.
Qed.

(** Without [-j] or [--j], no token selects the jobs action. *)
Lemma classify_jobs (arg_strings : list string) (toks : list token) :
  classify arg_strings = ok toks ->
  Forall (fun s => mentions_jobs s = false) arg_strings ->
  Forall (fun t => head_action t <> Some jobs) toks.
Proof.
  intros C F. apply classify_faithful in C.
  eapply Forall_impl; [|exact C].
  intros t [I P] H. rewrite Forall_forall in F. specialize (F _ I).
  destruct t as [s|s [[oa os] e]|]; cbn in H; try discriminate.
  subst oa. destruct P as [_ P]. apply parse_optional_jobs in P.
  cbn in F. congruence.
Qed.

(** The tokens of a command line cut in two. *)
Lemma classify_app (pre post : list string) (toks : list token) :
  classify (pre ++ post) = ok toks ->
  exists tp tq,
    classify pre = ok tp /\ toks = tp ++ tq
    /\ ((In dashes tp /\ tq = map A post)
        \/ (~ In dashes tp /\ classify post = ok tq)).
Proof.
  revert toks. induction pre as [|s pre IH]; intros toks.
  - rewrite app_nil_l. intros C. exists [], toks.
    repeat split; trivial. right. split; [intros [] | exact C].
  - rewrite <- app_comm_cons. cbn [classify].
    destruct (String.eqb_spec s "--") as [->|N].
    + intros [= <-]. exists (dashes :: map A pre), (map A post).
      rewrite map_app. repeat split; auto. left. split; [now left | reflexivity].
    + destruct (parse_optional s) as [|tu|e] eqn:P; try discriminate;
        (destruct (classify (pre ++ post)) as [ts| |] eqn:C; try discriminate);
        intros [= <-];
        destruct (IH ts eq_refl) as (tp & tq & -> & -> & D); cbn [Argparse.bind].
      * exists (A s :: tp), tq. repeat split.
        destruct D as [[D ->]|[D E]];
          [left; split; [now right | reflexivity] | right].
        split; [|exact E]. intros [F|F]; [discriminate | contradiction].
      * exists (O s tu :: tp), tq. repeat split.
        destruct D as [[D ->]|[D E]];
          [left; split; [now right | reflexivity] | right].
        split; [|exact E]. intros [F|F]; [discriminate | contradiction].
Qed.

Lemma classify_not_help (arg_strings : list string) :
  classify arg_strings <> help_exit.
Proof.
  induction arg_strings as [|s l IH]; cbn [classify]; [discriminate|].
  destruct (String.eqb s "--"); [discriminate|].
  destruct (parse_optional s); try discriminate;
    destruct (classify l); discriminate || congruence.
Qed.

(** An option of the command line is among the tokens, unless a [--]
    came first. *)
Lemma classify_In (arg_strings : list string) (toks : list token)
    (s : string) (tu : option_tuple) :
  classify arg_strings = ok toks -> In s arg_strings ->
  parse_optional s = optional tu ->
  In (O s tu) toks \/ In dashes toks.
Proof.
  revert toks. induction arg_strings as [|x l IH]; intros toks C I P;
    [contradiction|].
  cbn [classify] in C. destruct (String.eqb_spec x "--") as [->|N].
  - injection C as <-. right. now left.
  - destruct I as [->|I].
    + rewrite P in C. destruct (classify l); try discriminate.
      injection C as <-. left. now left.
    + destruct (parse_optional x); try discriminate;
        (destruct (classify l) as [ts| |]; try discriminate);
        injection C as <-;
        (destruct (IH ts eq_refl I P); [left | right]; now right).
Qed.

Lemma exclusive_initial : exclusive initial.
Proof. intros H. discriminate. Qed.

Lemma parse_args_ok_inv (arg_strings : list string) (args : Namespace) :
  parse_args arg_strings = ok args ->
  exists toks st,
    classify arg_strings = ok toks /\ consume initial toks = ok st
    /\ extras st = [] /\ namespace st = args.
Proof.
  unfold parse_args, parse_known_args.
  destruct (classify arg_strings) as [toks| |]; try discriminate.
  cbn [Argparse.bind].
  destruct (consume initial toks) as [st| |] eqn:K; try discriminate.
  cbn [Argparse.bind]. destruct (extras st) eqn:E; [|discriminate].
  intros [= <-]. exists toks, st. auto.
Qed.

(** A command line whose first part is refused by the loop is not
    accepted, and the help can only come from that part. *)
Lemma parse_refused (pre post : list string) (tp tq : list token) :
  classify pre = ok tp -> classify (pre ++ post) = ok (tp ++ tq) ->
  refused tp (consume initial (tp ++ tq)) ->
  rejected_or_help pre (parse_args (pre ++ post)).
Proof.
  intros Cp C R. unfold parse_args, parse_known_args. rewrite C.
  cbn [Argparse.bind].
  destruct (consume initial (tp ++ tq)) as [st|e|]; cbn in R |- *.
  - contradiction.
  - left. eauto.
  - right. split; [reflexivity|]. eapply classify_help; eassumption.
Qed.

(** With such a token the loop does not accept. *)
Lemma consume_surely_extra (toks : list token) (t : token) :
  Forall registered toks -> In t toks -> surely_extra t ->
  forall st st', consume st toks = ok st' -> extras st' <> [].
Proof.
  intros R I [H N] st st' C.
  apply in_split in I as (l1 & l2 & ->).
  pose proof C as C'.
  apply consume_reaches in C' as (st0 & st1 & rest1 & T & C1); trivial.
  pose proof (took_extra_token _ _ _ _ _ T H) as E.
  assert (R1 : Forall registered rest1).
  { apply Forall_app in R as [_ R]. inversion R as [|? ? _ R2]; subst.
    destruct (took_rest _ _ _ _ _ T) as [-> | (v & ->)]; trivial.
    now inversion R2. }
  eapply consume_extras; eassumption.
Qed.

(** After [--] nothing is accepted, and nothing after it is the help. *)
Lemma parse_dashes (pre post : list string) (tp : list token) :
  classify pre = ok tp -> In dashes tp ->
  classify (pre ++ post) = ok (tp ++ map A post) ->
  rejected_or_help pre (parse_args (pre ++ post)).
Proof.
  intros Cp D C.
  assert (R : Forall registered (tp ++ map A post))
    by (eapply classify_registered; eassumption).
  unfold parse_args, parse_known_args. rewrite C. cbn [Argparse.bind].
  destruct (consume initial (tp ++ map A post)) as [st|e|] eqn:K;
    cbn [Argparse.bind].
  - left. assert (E : extras st <> []).
    { eapply (consume_surely_extra _ dashes); try eassumption.
      - apply in_or_app. now left.
      - split; [reflexivity | discriminate]. }
    destruct (extras st); [contradiction | eauto].
  - left. eauto.
  - right. split; [reflexivity|].
    apply consume_help_inv in K; [|assumption].
    apply Exists_app in K as [K|K].
    + eapply classify_help; eassumption.
    + apply Exists_exists in K as (t & I & H).
      apply in_map_iff in I as (x & <- & _). discriminate.
Qed.

End ClassifyFacts.

(* ================================================================= *)
(** ** Facts about the script *)

Section ScriptFacts.

Variable env : Env.
Variable argv : list string.

Lemma main_usage_error (e : Argparse.ArgumentError) :
  Argparse.parse_args argv = Argparse.usage_error e ->
  main argv env = ([print_usage_error e], SystemExit 2).
Proof. intros H. unfold main, parse_args, bind. rewrite H. reflexivity. Qed.

Lemma main_help :
  Argparse.parse_args argv = Argparse.help_exit ->
  main argv env = ([print_help], SystemExit 0).
Proof. intros H. unfold main, parse_args, bind. rewrite H. reflexivity. Qed.

Lemma main_info (args : Argparse.Namespace) :
  Argparse.parse_args argv = Argparse.ok args ->
  Argparse.info_flag args = true ->
  main argv env = ([print info_text], Returned tt).
Proof.
  intros H I. unfold main, parse_args, bind. rewrite H. cbn. rewrite I.
  reflexivity.
Qed.

Lemma run_command_eq (command : list string) (cwd : string) :
  run_command command cwd env =
  match returncode env command with
  | None => ([print ("Running: " ++ Python.join " " command)], OSError)
  | Some c =>
      if c =? 0 then
        ([print ("Running: " ++ Python.join " " command);
          spawn command cwd; wait command c], Returned tt)
      else
        ([print ("Running: " ++ Python.join " " command);
          spawn command cwd; wait command c; failure_event command],
         SystemExit c)
  end.
Proof.
  unfold run_command, subprocess_run, bind, ask, emit, failure_event. cbn.
  destruct (returncode env command) as [c|]; cbn; [|reflexivity].
  destruct (c =? 0); reflexivity.
Qed.

Lemma main_build (args : Argparse.Namespace) :
  Argparse.parse_args argv = Argparse.ok args ->
  Argparse.info_flag args = false ->
  main argv env =
  match returncode env (cmake_command_of args) with
  | None => (configure_start env args, OSError)
  | Some c =>
      if c =? 0 then
        match returncode env (build_command_of args) with
        | None => (configure_events env args c ++ build_start args, OSError)
        | Some b =>
            if b =? 0 then
              (configure_events env args c ++ build_events env args b,
               Returned tt)
            else
              (configure_events env args c ++ build_events env args b
                 ++ [failure_event (build_command_of args)],
               SystemExit b)
        end
      else
        (configure_events env args c
           ++ [failure_event (cmake_command_of args)],
         SystemExit c)
  end.
Proof.
  intros H I. unfold main, parse_args, bind. rewrite H.
  cbn -[run_command]. rewrite I.
  unfold configure_events, configure_start, build_events, build_start,
    failure_event, build_dir_of, cmake_command_of, build_command_of.
  destruct (compose args) as [[bd cc] bc]. cbn -[run_command].
  rewrite !run_command_eq.
  destruct (returncode env cc) as [c|]; [|reflexivity].
  destruct (c =? 0); [|reflexivity].
  destruct (returncode env bc) as [b|]; [|reflexivity].
  destruct (b =? 0); reflexivity.
Qed.

End ScriptFacts.

(* ================================================================= *)
(** ** The command composer *)

(** C1.  For the four combinations of the web flag and the build type, the
    build directory is the one of the table: build-release, build-debug,
    build-web-release, build-web-debug. *)
Theorem C1_build_dir_table (jobs : jobs_value) (info : bool) :
  build_dir_of (Argparse.mkNamespace "Release" false jobs info) = "build-release"
  /\ build_dir_of (Argparse.mkNamespace "Debug" false jobs info) = "build-debug"
  /\ build_dir_of (Argparse.mkNamespace "Release" true jobs info)
     = "build-web-release"
  /\ build_dir_of (Argparse.mkNamespace "Debug" true jobs info)
     = "build-web-debug".
Proof. repeat split. Qed.

(** An action leaves one of the two build types. *)
Lemma take_action_build_type (a : Argparse.Action) (l : list string)
    (st st' : Argparse.state) :
  Argparse.take_action a l st = Argparse.ok st' ->
  (Argparse.build_type (Argparse.namespace st) = "Release"
   \/ Argparse.build_type (Argparse.namespace st) = "Debug") ->
  Argparse.build_type (Argparse.namespace st') = "Release"
  \/ Argparse.build_type (Argparse.namespace st') = "Debug".
Proof.
  destruct a; cbn [Argparse.take_action].
  - unfold Argparse.check_conflicts. cbn. discriminate.
  - destruct (Argparse.check_conflicts _ st) as [s| |] eqn:C; try discriminate.
    intros [= <-] _. now right.
  - destruct (Argparse.check_conflicts _ st) as [s| |] eqn:C; try discriminate.
    intros [= <-] _. now left.
  - unfold Argparse.check_conflicts. cbn. intros [= <-]. trivial.
  - destruct l as [|x [|]]; try (intros [= <-]; trivial).
    destruct (Argparse.get_values x) as [v| |]; try discriminate.
    cbn [Argparse.bind]. destruct (Argparse.is_not_default v);
      [rewrite check_conflicts_free by reflexivity|]; intros [= <-]; trivial.
  - unfold Argparse.check_conflicts. cbn. intros [= <-]. trivial.
Qed.

(** Every accepted command line leaves one of the two build types. *)
Lemma build_type_enumerated (argv : list string) (args : Argparse.Namespace) :
  Argparse.parse_args argv = Argparse.ok args ->
  Argparse.build_type args = "Release" \/ Argparse.build_type args = "Debug".
Proof.
  intros P. apply parse_args_ok_inv in P as (toks & st & C & K & _ & <-).
  apply (consume_invariant (fun _ => True)
           (fun s => Argparse.build_type (Argparse.namespace s) = "Release"
                     \/ Argparse.build_type (Argparse.namespace s) = "Debug"))
    with (toks := toks) (st := Argparse.initial); trivial.
  - intros s0 t rest s1 rest1 _ _ T H.
    destruct T; trivial; eapply take_action_build_type; eassumption.
  - eapply classify_registered; eassumption.
  - apply Forall_forall. trivial.
  - now left.
Qed.

(** C2.  The two command lines, for every web flag, build type and job
    count: [cmake -DCMAKE_BUILD_TYPE=<type> -S . -B <dir>] natively,
    [emcmake cmake -DCMAKE_BUILD_TYPE=<type> -B <dir>] for the web, and
    [cmake --build <dir> -j<jobs>] in both cases; and the example
    [--web --debug -j4]. *)
Theorem C2_command_lines (is_web : bool) (build_type : string) (jobs : Z)
    (info : bool) :
  let args := Argparse.mkNamespace build_type is_web (int_value jobs) info in
  cmake_command_of args =
    (if is_web
     then ["emcmake"; "cmake"; ("-DCMAKE_BUILD_TYPE=" ++ build_type)%string;
           "-B"; build_dir_of args]
     else ["cmake"; ("-DCMAKE_BUILD_TYPE=" ++ build_type)%string;
           "-S"; "."; "-B"; build_dir_of args])
  /\ build_command_of args =
       ["cmake"; "--build"; build_dir_of args; ("-j" ++ Python.str jobs)%string]
  /\ exists example,
       Argparse.parse_args ["--web"; "--debug"; "-j4"] = Argparse.ok example
       /\ compose example =
            ("build-web-debug",
             ["emcmake"; "cmake"; "-DCMAKE_BUILD_TYPE=Debug"; "-B";
              "build-web-debug"],
             ["cmake"; "--build"; "build-web-debug"; "-j4"]).
Proof.
  repeat split.
  - destruct is_web; reflexivity.
  - destruct is_web; reflexivity.
  - eexists. split; reflexivity.
Qed.

(** The configure command and the build command are never the same. *)
Lemma commands_differ (args : Argparse.Namespace) :
  cmake_command_of args <> build_command_of args.
Proof.
  unfold cmake_command_of, build_command_of, compose.
  destruct (Argparse.web_flag args); cbn; discriminate.
Qed.

(* ================================================================= *)
(** ** The process runner *)

(** The exit status of a code from 0 to 255 is the code. *)
Lemma exit_status_byte (c : Z) : 0 <= c < 256 -> exit_status c = c.
Proof.
  intros H. unfold exit_status.
  destruct (Z.leb_spec (- 2 ^ 63) c); destruct (Z.ltb_spec c (2 ^ 63));
    cbn [andb]; try lia.
  change 255 with (Z.ones 8). rewrite Z.land_ones by lia.
  apply Z.mod_small. lia.
Qed.

(** The exit status of the return code of a child that a signal ended. *)
Lemma exit_status_signal (c : Z) : - 256 < c < 0 -> exit_status c = 256 + c.
Proof.
  intros H. unfold exit_status.
  destruct (Z.leb_spec (- 2 ^ 63) c); destruct (Z.ltb_spec c (2 ^ 63));
    cbn [andb]; try lia.
  change 255 with (Z.ones 8). rewrite Z.land_ones by lia.
  change (2 ^ 8) with 256.
  rewrite <- (Z.mod_small (256 + c) 256) by lia.
  rewrite <- (Z.mod_add c 1 256) by lia. f_equal. lia.
Qed.

(** C5.  When the configure command ends with a code [c] other than 0, it
    is the only command started: the build command is not, and the tool
    exits with the code [c].  The exit status of the tool is the low byte
    of [c]: [c] itself for the codes 1 to 255 that a command can exit
    with, and 256 less the number of the signal for a command that a
    signal ended, whose return code is the number negated. *)
Theorem C5_configure_failure (env : Env) (argv : list string)
    (args : Argparse.Namespace) (c : Z) :
  Argparse.parse_args argv = Argparse.ok args ->
  Argparse.info_flag args = false ->
  returncode env (cmake_command_of args) = Some c ->
  c <> 0 ->
  spawned (trace env argv) = [cmake_command_of args]
  /\ ~ In (build_command_of args) (spawned (trace env argv))
  /\ snd (main argv env) = SystemExit c
  /\ process_status env argv = exit_status c
  /\ (0 < c < 256 -> process_status env argv = c)
  /\ (- 256 < c < 0 -> process_status env argv = 256 + c).
Proof.
  intros P I R C. unfold process_status, status, trace.
  rewrite (main_build env argv args P I), R.
  destruct (Z.eqb_spec c 0) as [|_]; [contradiction|].
  cbn [fst snd exit_code].
  unfold configure_events, configure_start, failure_event.
  cbn [List.app spawned].
  split; [reflexivity | split; [|split; [reflexivity | split; [|split]]]].
  - intros [E|[]]. now apply commands_differ in E.
  - reflexivity.
  - intros B. apply exit_status_byte. lia.
  - apply exit_status_signal.
Qed.

Lemma C5_witness :
  spawned (trace (failing_env 3) ["--debug"])
  = [["cmake"; "-DCMAKE_BUILD_TYPE=Debug"; "-S"; "."; "-B"; "build-debug"]]
  /\ process_status (failing_env 3) ["--debug"] = 3.
Proof.
  destruct (C5_configure_failure (failing_env 3) ["--debug"]
              (Argparse.mkNamespace "Debug" false (int_value 8) false) 3)
    as (S & _ & _ & _ & E & _);
    [reflexivity | reflexivity | reflexivity | lia |].
  split; [exact S | apply E; lia].
Defined.

Ltac every_prefix :=
  let p := fresh "p" in
  let q := fresh "q" in
  let E := fresh "E" in
  intros p q E;
  repeat (destruct p as [|? p];
          [ cbn [alive]; lia
          | rewrite <- app_comm_cons in E; injection E as <- E ]);
  destruct p; [cbn [alive]; lia | discriminate].

Ltac show_events :=
  unfold configure_events, configure_start, build_events, build_start,
    failure_event in *;
  cbn [List.app] in *.

(** C8.  The children of a run never overlap: after every prefix of the
    trace at most one is alive.  At most two are started; and when two are,
    the first is the configure command and the second the build command of
    the accepted command line, and the configure command has ended, with
    code 0, before the build command starts. *)
Theorem C8_sequential (env : Env) (argv : list string) :
  (forall p q, trace env argv = p ++ q -> 0 <= alive p <= 1)
  /\ (List.length (spawned (trace env argv)) <= 2)%nat
  /\ (forall c b, spawned (trace env argv) = [c; b] ->
      exists args rc,
        Argparse.parse_args argv = Argparse.ok args
        /\ c = cmake_command_of args
        /\ b = build_command_of args
        /\ returncode env c = Some 0
        /\ returncode env b = Some rc
        /\ child_events (trace env argv)
           = [spawn c (base_dir env); wait c 0;
              spawn b (base_dir env); wait b rc]).
Proof.
  unfold trace.
  destruct (Argparse.parse_args argv) as [args|e|] eqn:P.
  - destruct (Argparse.info_flag args) eqn:I.
    + rewrite (main_info env argv args P I). cbn [fst].
      split; [every_prefix | split; [cbn; lia | cbn; intros c b; discriminate]].
    + rewrite (main_build env argv args P I).
      destruct (returncode env (cmake_command_of args)) as [rc|] eqn:R;
        [destruct (Z.eqb_spec rc 0) as [->|N];
         [destruct (returncode env (build_command_of args)) as [rb|] eqn:B;
          [destruct (rb =? 0)|]|]|];
        cbn [fst]; show_events;
        (split; [every_prefix | split; [cbn; lia |]]);
        cbn [spawned child_events filter is_child_event];
        intros c b E; try discriminate E;
        injection E as <- <-; exists args, rb; auto 7.
  - rewrite (main_usage_error env argv e P). cbn [fst].
    split; [every_prefix | split; [cbn; lia | cbn; intros c b; discriminate]].
  - rewrite (main_help env argv P). cbn [fst].
    split; [every_prefix | split; [cbn; lia | cbn; intros c b; discriminate]].
Qed.

(* ================================================================= *)
(** ** Usage errors and the help *)

Lemma main_rejected_or_help (env : Env) (argv pre : list string) :
  rejected_or_help pre (Argparse.parse_args argv) ->
  spawned (trace env argv) = []
  /\ ((exists e, main argv env = ([print_usage_error e], SystemExit 2))
      \/ (main argv env = ([print_help], SystemExit 0)
          /\ Exists (fun s => mentions_help s = true) pre)).
Proof.
  unfold trace. intros [(e & H) | (H & X)].
  - rewrite (main_usage_error env argv e H). split; [reflexivity | eauto].
  - rewrite (main_help env argv H). split; [reflexivity | eauto].
Qed.

Lemma no_help_mention (pre : list string) :
  Forall (fun s => mentions_help s = false) pre ->
  Exists (fun s => mentions_help s = true) pre -> False.
Proof.
  intros F X. apply Exists_exists in X as (s & I & H).
  rewrite Forall_forall in F. specialize (F s I). cbn in F. congruence.
Qed.

(** A command line with both build types is not accepted; the help can
    only come from what is written before the second of them. *)
Lemma conflict_outcome (pre post : list string) :
  In "--debug" pre -> In "--release" pre ->
  rejected_or_help pre (Argparse.parse_args (pre ++ post)).
Proof.
  intros D R.
  destruct (Argparse.classify (pre ++ post)) as [toks|e|] eqn:C.
  - destruct (classify_app pre post toks C) as (tp & tq & Cp & -> & K).
    destruct K as [[Kd ->] | [Kn Cq]].
    + now apply (parse_dashes pre post tp).
    + apply (parse_refused pre post tp tq); trivial.
      apply consume_conflict.
      * eapply classify_registered; eassumption.
      * apply exclusive_initial.
      * right. apply Exists_exists.
        destruct (classify_In pre tp "--debug"
                    (Some Argparse.debug, "--debug", None) Cp D eq_refl)
          as [I|I]; [|contradiction].
        eexists. split; [exact I | reflexivity].
      * right. apply Exists_exists.
        destruct (classify_In pre tp "--release"
                    (Some Argparse.release, "--release", None) Cp R eq_refl)
          as [I|I]; [|contradiction].
        eexists. split; [exact I | reflexivity].
  - left. exists e. unfold Argparse.parse_args, Argparse.parse_known_args.
    now rewrite C.
  - now apply classify_not_help in C.
Qed.

(** C3, as the code has it.  A command line with both [--debug] and
    [--release] starts no command and is not accepted: it ends in a usage
    error with status 2, unless a help option written before the second
    of the two is reached first, and then the help is printed and the
    status is 0. *)
Theorem C3_debug_release_conflict (env : Env) (pre post : list string) :
  In "--debug" pre -> In "--release" pre ->
  spawned (trace env (pre ++ post)) = []
  /\ ((exists e,
          main (pre ++ post) env = ([print_usage_error e], SystemExit 2))
      \/ (main (pre ++ post) env = ([print_help], SystemExit 0)
          /\ Exists (fun s => mentions_help s = true) pre))
  /\ (Forall (fun s => mentions_help s = false) pre ->
      (exists e,
          main (pre ++ post) env = ([print_usage_error e], SystemExit 2))
      /\ status env (pre ++ post) = 2).
Proof.
  intros D R.
  destruct (main_rejected_or_help env (pre ++ post) pre
              (conflict_outcome pre post D R)) as (S & O).
  split; [exact S | split; [exact O | intros F]].
  destruct O as [(e & H)|(_ & X)].
  - split; [eauto | unfold status; now rewrite H].
  - exfalso. eapply no_help_mention; eassumption.
Qed.

Lemma C3_witness :
  spawned (trace quiet_env (["--debug"; "--web"; "--release"] ++ ["-h"])) = []
  /\ status quiet_env (["--debug"; "--web"; "--release"] ++ ["-h"]) = 2.
Proof.
  destruct (C3_debug_release_conflict quiet_env
              ["--debug"; "--web"; "--release"] ["-h"])
    as (S & _ & U).
  - simpl. tauto.
  - simpl. tauto.
  - split; [exact S|]. apply U. repeat constructor.
Defined.

(** C3 as it is written fails: with the help option first, the status is 0
    although both build types are given. *)
Lemma C3_counterexample :
  In "--debug" ["--help"; "--debug"; "--release"]
  /\ In "--release" ["--help"; "--debug"; "--release"]
  /\ main ["--help"; "--debug"; "--release"] quiet_env
     = ([print_help], SystemExit 0)
  /\ status quiet_env ["--help"; "--debug"; "--release"] = 0.
Proof. repeat split; simpl; tauto. Qed.

(** A command line with [--info] that is accepted has the info flag. *)
Lemma info_accepted (argv : list string) (args : Argparse.Namespace) :
  In "--info" argv -> Argparse.parse_args argv = Argparse.ok args ->
  Argparse.info_flag args = true.
Proof.
  intros I P.
  apply parse_args_ok_inv in P as (toks & st & C & K & E & <-).
  pose proof (classify_registered argv toks C) as R.
  destruct (classify_In argv toks "--info"
              (Some Argparse.info, "--info", None) C I eq_refl) as [T|T].
  - apply in_split in T as (l1 & l2 & ->).
    pose proof K as K'.
    apply consume_reaches in K' as (st0 & st1 & rest1 & T & K1);
      [|discriminate|assumption].
    apply took_info_token in T as F; [|reflexivity].
    eapply consume_info; [|exact K1|exact F].
    apply Forall_app in R as [_ R]. inversion R as [|? ? _ R2]; subst.
    destruct (took_rest _ _ _ _ _ T) as [-> | (v & ->)]; trivial.
    now inversion R2.
  - exfalso. eapply (consume_surely_extra toks Argparse.dashes); try eassumption.
    split; [reflexivity | discriminate].
Qed.

(** C4, as the code has it.  A command line with [--info] starts no
    command.  When it is accepted by the parser, whatever the other flags,
    the reference block is printed, nothing else, and the status is 0.
    When it is not, the run ends in the parser: usage error with status 2,
    or help with status 0, and the block is not printed. *)
Theorem C4_info (env : Env) (argv : list string) :
  In "--info" argv ->
  spawned (trace env argv) = []
  /\ (forall args, Argparse.parse_args argv = Argparse.ok args ->
      main argv env = ([print info_text], Returned tt)
      /\ status env argv = 0)
  /\ ((forall args, Argparse.parse_args argv <> Argparse.ok args) ->
      ~ In (print info_text) (trace env argv)
      /\ ((exists e,
              main argv env = ([print_usage_error e], SystemExit 2))
          \/ main argv env = ([print_help], SystemExit 0))).
Proof.
  intros I. unfold trace, status.
  destruct (Argparse.parse_args argv) as [args|e|] eqn:P.
  - pose proof (info_accepted argv args I P) as F.
    rewrite (main_info env argv args P F).
    split; [reflexivity | split].
    + intros _ _. split; reflexivity.
    + intros N. now destruct (N args).
  - rewrite (main_usage_error env argv e P).
    split; [reflexivity | split]; [discriminate|].
    intros _. split; [|eauto]. intros [H|[]]. discriminate.
  - rewrite (main_help env argv P).
    split; [reflexivity | split]; [discriminate|].
    intros _. split; [|eauto]. intros [H|[]]. discriminate.
Qed.

Lemma C4_witness :
  main ["--web"; "-j"; "3"; "--info"; "--debug"] quiet_env
  = ([print info_text], Returned tt)
  /\ spawned (trace quiet_env ["--web"; "-j"; "3"; "--info"; "--debug"]) = [].
Proof.
  destruct (C4_info quiet_env ["--web"; "-j"; "3"; "--info"; "--debug"])
    as (S & A & _).
  - simpl. tauto.
  - split; [|exact S].
    apply (A (Argparse.mkNamespace "Debug" true (int_value 3) true)).
    reflexivity.
Defined.

(** C4 as it is written fails: with a usage error on the same command
    line, the block is not printed and the status is 2. *)
Lemma C4_counterexample :
  In "--info" ["--info"; "--debug"; "--release"]
  /\ main ["--info"; "--debug"; "--release"] quiet_env
     = ([print_usage_error
           (Argparse.not_allowed_with Argparse.release Argparse.debug)],
        SystemExit 2)
  /\ ~ In (print info_text) (trace quiet_env ["--info"; "--debug"; "--release"])
  /\ status quiet_env ["--info"; "--debug"; "--release"] = 2.
Proof.
  repeat split; try (simpl; tauto).
  intros [H|[]]. discriminate.
Qed.

(* ================================================================= *)
(** ** The job count *)

Lemma classify_option (s : string) (tu : Argparse.option_tuple)
    (l : list string) :
  String.eqb s "--" = false ->
  Argparse.parse_optional s = Argparse.optional tu ->
  Argparse.classify (s :: l)
  = Argparse.bind (Argparse.classify l)
      (fun ts => Argparse.ok (Argparse.O s tu :: ts)).
Proof. intros E P. cbn [Argparse.classify]. now rewrite E, P. Qed.

Lemma classify_argument (s : string) (l : list string) :
  String.eqb s "--" = false ->
  Argparse.parse_optional s = Argparse.positional ->
  Argparse.classify (s :: l)
  = Argparse.bind (Argparse.classify l)
      (fun ts => Argparse.ok (Argparse.A s :: ts)).
Proof. intros E P. cbn [Argparse.classify]. now rewrite E, P. Qed.

Lemma str_not_dashes (n : Z) : String.eqb (Python.str n) "--" = false.
Proof.
  unfold Python.str.
  destruct (to_int_cases n) as (u & Hu & [E | E]); rewrite E;
    cbn [NilZero.string_of_int];
    rewrite string_of_uint_nonnil by assumption;
    destruct (digit_string_of_uint u Hu) as (c & s & -> & Hc);
    apply isdigit_cases in Hc; simpl in Hc;
    repeat (destruct Hc as [<-|Hc]; [reflexivity|]); contradiction.
Qed.

Lemma str_first (n : Z) :
  exists c s, Python.str n = String c s /\ c <> "="%char.
Proof.
  unfold Python.str.
  destruct (to_int_cases n) as (u & Hu & [E | E]); rewrite E;
    cbn [NilZero.string_of_int];
    rewrite string_of_uint_nonnil by assumption.
  - destruct (digit_string_of_uint u Hu) as (c & s & -> & Hc).
    exists c, s. split; [reflexivity|]. intros ->. discriminate.
  - eexists _, _. split; [reflexivity | discriminate].
Qed.

Lemma get_values_str (n : Z) :
  Z.abs n < 10 ^ 4300 ->
  Argparse.get_values (Python.str n) = Argparse.ok (int_value n).
Proof.
  intros L. unfold Argparse.get_values.
  now rewrite str_not_dashes, int_str.
Qed.

Lemma endswith_dashes_not (s x : string) :
  endswith s x = true -> endswith s "--" = false -> x <> "--".
Proof. intros E F ->. congruence. Qed.

Lemma get_values_int (x : string) (v : jobs_value) :
  x <> "--" -> Argparse.get_values x = Argparse.ok v ->
  exists n, Python.int x = Some n /\ v = int_value n.
Proof.
  intros N. unfold Argparse.get_values.
  destruct (String.eqb_spec x "--") as [|_]; [contradiction|].
  destruct (Python.int x) as [m|]; [|discriminate].
  intros [= <-]. eauto.
Qed.

(** Without a token that selects the jobs option, the job count of an
    accepted command line is the default. *)
Lemma jobs_default (argv : list string) (args : Argparse.Namespace) :
  Argparse.parse_args argv = Argparse.ok args ->
  Forall (fun s => mentions_jobs s = false) argv ->
  Argparse.jobs_count args = int_value 8.
Proof.
  intros P F. apply parse_args_ok_inv in P as (toks & st & C & K & E & <-).
  pose proof (classify_registered argv toks C) as R.
  apply (consume_jobs_kept toks Argparse.initial st R); trivial.
  eapply classify_jobs; eassumption.
Qed.

(** Without a token that ends in [--], the job count of an accepted command
    line is an integer. *)
Lemma jobs_integer (argv : list string) (args : Argparse.Namespace) :
  Argparse.parse_args argv = Argparse.ok args ->
  Forall (fun s => endswith s "--" = false) argv ->
  exists n, Argparse.jobs_count args = int_value n.
Proof.
  intros P F. apply parse_args_ok_inv in P as (toks & st & C & K & E & <-).
  pose proof (classify_registered argv toks C) as R.
  apply (consume_invariant (faithful argv)
           (fun s => exists n,
                Argparse.jobs_count (Argparse.namespace s) = int_value n))
    with (toks := toks) (st := Argparse.initial); trivial.
  - rewrite Forall_forall in F.
    intros s0 t rest s1 rest1 [I Q] Qr T (n & J).
    destruct T as [t rest H0 | s os a rest st' Ha Hj T
                   | s os x rest st' T | s os v rest st' T].
    + eauto.
    + apply take_action_flag_inv in T as (_ & _ & _ & -> & _); eauto.
    + destruct Q as [_ Q]. apply parse_optional_spec in Q as (_ & _ & X).
      specialize (X x eq_refl).
      apply take_action_jobs_inv in T as (G & _).
      apply get_values_int in G as (m & _ & ->); [eauto|].
      eapply endswith_dashes_not; [exact X|]. now apply F.
    + apply take_action_jobs_inv in T as (G & _).
      apply get_values_int in G as (m & _ & ->); [eauto|].
      inversion Qr as [|? ? [Iv _] _]; subst. cbn in Iv.
      intros ->. specialize (F _ Iv). discriminate.
  - now apply classify_faithful.
  - now exists 8.
Qed.

(** C7, as the code has it.  On an accepted command line the job count is
    8 when no token selects the jobs option; and it is an integer, of any
    sign, whenever no token ends in [--]. *)
Theorem C7_jobs_value (argv : list string) (args : Argparse.Namespace) :
  Argparse.parse_args argv = Argparse.ok args ->
  (Forall (fun s => mentions_jobs s = false) argv ->
   Argparse.jobs_count args = int_value 8)
  /\ (Forall (fun s => endswith s "--" = false) argv ->
      exists n, Argparse.jobs_count args = int_value n).
Proof.
  intros P. split; intros F.
  - now apply (jobs_default argv).
  - now apply (jobs_integer argv).
Qed.

Lemma C7_witness :
  Argparse.jobs_count
    (Argparse.mkNamespace "Debug" false (int_value 8) false) = int_value 8
  /\ exists n,
      Argparse.jobs_count
        (Argparse.mkNamespace "Release" true (int_value (-2)) false)
      = int_value n.
Proof.
  split.
  - apply (C7_jobs_value ["--debug"]); [reflexivity | repeat constructor].
  - apply (C7_jobs_value ["--web"; "-j"; "-2"]);
      [reflexivity | repeat constructor].
Defined.

(** C7 as it is written fails: a job count of zero, or below, is accepted. *)
Lemma C7_counterexample :
  Argparse.parse_args ["--jobs"; "0"]
  = Argparse.ok (Argparse.mkNamespace "Release" false (int_value 0) false)
  /\ Argparse.parse_args ["-j"; "-3"]
     = Argparse.ok (Argparse.mkNamespace "Release" false (int_value (-3)) false)
  /\ ~ (0 < 0) /\ ~ (0 < -3).
Proof. repeat split; lia. Qed.

(** The value [--] attached to the option leaves an empty list, which is
    accepted and put in the build command as it is. *)
Lemma jobs_dashes_accepted :
  Argparse.parse_args ["--jobs=--"]
  = Argparse.ok (Argparse.mkNamespace "Release" false empty_list false)
  /\ build_command_of
       (Argparse.mkNamespace "Release" false empty_list false)
     = ["cmake"; "--build"; "build-release"; "-j[]"].
Proof. split; reflexivity. Qed.

(* ================================================================= *)
(** ** A value that is not an integer *)

Lemma parse_optional_equals (flag v : string) :
  In flag ["--jobs"; "-j"] ->
  Argparse.parse_optional (flag ++ "=" ++ v)
  = Argparse.optional (Some Argparse.jobs, flag, Some v).
Proof.
  intros [<-|[<-|[]]]; reflexivity.
Qed.

Lemma parse_optional_attached (c : ascii) (v : string) :
  c <> "="%char ->
  Argparse.parse_optional ("-j" ++ String c v)
  = Argparse.optional (Some Argparse.jobs, "-j", Some (String c v)).
Proof.
  intros N. unfold Argparse.parse_optional.
  cbn [String.append negb Ascii.eqb Bool.eqb].
  assert (L : forall t, Argparse.lookup (String "-" (String "j" (String c t)))
                Argparse.option_string_actions = None).
  { intros t. unfold Argparse.lookup, Argparse.option_string_actions.
    rewrite !string_eqb_cons. cbn [Ascii.eqb Bool.eqb String.eqb]. reflexivity. }
  rewrite L.
  assert (Sp : match Python.split1 "=" (String "-" (String "j" (String c v))) with
        | Some (option_string, explicit_arg) =>
            match Argparse.lookup option_string Argparse.option_string_actions with
            | Some a => Some (Some a, option_string, Some explicit_arg)
            | None => None
            end
        | None => None
        end = None).
  { cbn [Python.split1 Ascii.eqb Bool.eqb].
    destruct (Ascii.eqb_spec c "=") as [|_]; [contradiction|].
    destruct (Python.split1 "=" v) as [[h t]|]; [|reflexivity].
    now rewrite L. }
  rewrite Sp.
  unfold Argparse.get_option_tuples. cbn [Ascii.eqb Bool.eqb].
  unfold Argparse.option_string_actions. cbn [flat_map].
  unfold Python.startswith. rewrite !string_eqb_cons, !prefix_cons.
  cbn [Ascii.eqb Bool.eqb String.eqb List.app]. reflexivity.
Qed.

Lemma get_values_invalid (v : string) :
  v <> "--" -> Python.int v = None ->
  Argparse.get_values v = Argparse.usage_error (Argparse.invalid_int_value v).
Proof.
  intros N E. unfold Argparse.get_values.
  destruct (String.eqb_spec v "--") as [|_]; [contradiction|]. now rewrite E.
Qed.

Lemma take_action_invalid (v : string) (st : Argparse.state) :
  v <> "--" -> Python.int v = None ->
  Argparse.take_action Argparse.jobs [v] st
  = Argparse.usage_error (Argparse.invalid_int_value v).
Proof.
  intros N E. cbn [Argparse.take_action].
  now rewrite get_values_invalid.
Qed.

(** The tokens from a place where a value that is not an integer is given
    to the jobs option start with a token whose turn fails. *)
Lemma gives_jobs_stuck (v : string) (mid post : list string)
    (tq : list Argparse.token) :
  gives_jobs v mid -> Python.int v = None ->
  Argparse.classify (mid ++ post) = Argparse.ok tq ->
  exists t rest,
    tq = t :: rest /\ (forall x, t <> Argparse.A x)
    /\ forall st, exists e, step st t rest = Argparse.usage_error e.
Proof.
  intros G E C. destruct G as [flag F | flag F N | c v' -> Nc N].
  - assert (P : Argparse.parse_optional flag
                = Argparse.optional (Some Argparse.jobs, flag, None))
      by (destruct F as [<-|[<-|[]]]; reflexivity).
    assert (D : String.eqb flag "--" = false)
      by (destruct F as [<-|[<-|[]]]; reflexivity).
    assert (L : Argparse.lookup flag Argparse.option_string_actions
                = Some Argparse.jobs)
      by (destruct F as [<-|[<-|[]]]; reflexivity).
    cbn [List.app] in C. rewrite (classify_option _ _ _ D P) in C.
    destruct (Argparse.classify (v :: post)) as [rest| |] eqn:Cv;
      try discriminate.
    injection C as <-. eexists _, rest. split; [reflexivity|].
    split; [discriminate|]. intros st.
    rewrite (step_option st flag flag Argparse.jobs None rest L)
      by discriminate.
    destruct rest as [|[x|x tu|] rest']; eauto.
    cbn [Argparse.classify] in Cv.
    destruct (String.eqb_spec v "--") as [|Nv]; [discriminate|].
    destruct (Argparse.parse_optional v); try discriminate;
      destruct (Argparse.classify post); try discriminate.
    injection Cv as <- _.
    rewrite take_action_invalid by assumption. cbn [Argparse.bind]. eauto.
  - assert (L : Argparse.lookup flag Argparse.option_string_actions
                = Some Argparse.jobs)
      by (destruct F as [<-|[<-|[]]]; reflexivity).
    assert (D : String.eqb (flag ++ "=" ++ v) "--" = false)
      by (destruct F as [<-|[<-|[]]]; reflexivity).
    cbn [List.app] in C.
    rewrite (classify_option _ _ _ D (parse_optional_equals flag v F)) in C.
    destruct (Argparse.classify post) as [rest| |]; try discriminate.
    injection C as <-. eexists _, rest. split; [reflexivity|].
    split; [discriminate|]. intros st.
    rewrite (step_option st _ flag Argparse.jobs (Some v) rest L)
      by discriminate.
    rewrite take_action_invalid by assumption. cbn [Argparse.bind]. eauto.
  - cbn [List.app] in C.
    assert (D : String.eqb ("-j" ++ String c v') "--" = false) by reflexivity.
    rewrite (classify_option _ _ _ D (parse_optional_attached c v' Nc)) in C.
    destruct (Argparse.classify post) as [rest| |]; try discriminate.
    injection C as <-. eexists _, rest. split; [reflexivity|].
    split; [discriminate|]. intros st.
    rewrite (step_option st _ "-j" Argparse.jobs (Some (String c v')) rest
               eq_refl) by discriminate.
    rewrite take_action_invalid by assumption. cbn [Argparse.bind]. eauto.
Qed.

Lemma jobs_value_outcome (v : string) (pre mid post : list string) :
  gives_jobs v mid -> Python.int v = None ->
  rejected_or_help pre (Argparse.parse_args (pre ++ mid ++ post)).
Proof.
  intros G E.
  destruct (Argparse.classify (pre ++ mid ++ post)) as [toks|e|] eqn:C.
  - destruct (classify_app pre (mid ++ post) toks C)
      as (tp & tq & Cp & -> & K).
    destruct K as [[Kd ->] | [Kn Cq]].
    + now apply (parse_dashes pre (mid ++ post) tp).
    + apply (parse_refused pre (mid ++ post) tp tq); trivial.
      destruct (gives_jobs_stuck v mid post tq G E Cq)
        as (t & rest & -> & Nt & S).
      apply consume_stuck; trivial.
      eapply classify_registered; eassumption.
  - left. exists e. unfold Argparse.parse_args, Argparse.parse_known_args.
    now rewrite C.
  - now apply classify_not_help in C.
Qed.

(** C9, as the code has it.  A command line that gives the jobs option a
    value that is not an integer starts no command and is not accepted:
    it ends in a usage error with status 2, unless a help option written
    before is reached first, and then the help is printed and the status
    is 0. *)
Theorem C9_jobs_not_integer (env : Env) (v : string)
    (pre mid post : list string) :
  gives_jobs v mid -> Python.int v = None ->
  spawned (trace env (pre ++ mid ++ post)) = []
  /\ ((exists e,
          main (pre ++ mid ++ post) env = ([print_usage_error e], SystemExit 2))
      \/ (main (pre ++ mid ++ post) env = ([print_help], SystemExit 0)
          /\ Exists (fun s => mentions_help s = true) pre))
  /\ (Forall (fun s => mentions_help s = false) pre ->
      (exists e,
          main (pre ++ mid ++ post) env = ([print_usage_error e], SystemExit 2))
      /\ status env (pre ++ mid ++ post) = 2).
Proof.
  intros G E.
  destruct (main_rejected_or_help env (pre ++ mid ++ post) pre
              (jobs_value_outcome v pre mid post G E)) as (S & O).
  split; [exact S | split; [exact O | intros F]].
  destruct O as [(e & H)|(_ & X)].
  - split; [eauto | unfold status; now rewrite H].
  - exfalso. eapply no_help_mention; eassumption.
Qed.

Lemma C9_witness :
  spawned (trace quiet_env (["--web"] ++ ["-j"; "four"] ++ ["--help"])) = []
  /\ status quiet_env (["--web"] ++ ["-j"; "four"] ++ ["--help"]) = 2
  /\ status quiet_env ([] ++ ["--jobs=1.5"] ++ []) = 2
  /\ status quiet_env ([] ++ ["-jx"] ++ ["--debug"]) = 2.
Proof.
  split; [|split; [|split]].
  - apply (C9_jobs_not_integer quiet_env "four" ["--web"] ["-j"; "four"]
             ["--help"]); [apply gives_next; simpl; tauto | reflexivity].
  - apply (C9_jobs_not_integer quiet_env "four" ["--web"] ["-j"; "four"]
             ["--help"]);
      [apply gives_next; simpl; tauto | reflexivity | repeat constructor].
  - apply (C9_jobs_not_integer quiet_env "1.5" [] ["--jobs=1.5"] []);
      [apply (gives_equals "1.5" "--jobs"); [simpl; tauto | discriminate]
      | reflexivity | constructor].
  - apply (C9_jobs_not_integer quiet_env "x" [] ["-jx"] ["--debug"]);
      [apply (gives_attached "x" "x" ""); [reflexivity | discriminate..]
      | reflexivity | constructor].
Defined.

(** C9 as it is written fails: with the help option first, the status is 0
    although the value of [--jobs] is not an integer. *)
Lemma C9_counterexample :
  Python.int "abc" = None
  /\ main ["--help"; "--jobs"; "abc"] quiet_env = ([print_help], SystemExit 0)
  /\ status quiet_env ["--help"; "--jobs"; "abc"] = 0.
Proof. repeat split. Qed.

(* ================================================================= *)
(** ** Any integer within the limit *)

(** Beyond the limit [int] refuses the numeral, and the parser with it. *)
Lemma jobs_beyond_limit (env : Env) (N : Z) :
  10 ^ 4300 <= Z.abs N ->
  main ["--jobs"; Python.str N] env
  = ([print_usage_error (Argparse.invalid_int_value (Python.str N))],
     SystemExit 2).
Proof.
  intros L. apply main_usage_error.
  unfold Argparse.parse_args, Argparse.parse_known_args.
  rewrite (classify_option "--jobs" (Some Argparse.jobs, "--jobs", None))
    by reflexivity.
  rewrite (classify_argument (Python.str N) [])
    by (apply str_not_dashes || apply parse_optional_str).
  cbn [Argparse.classify Argparse.bind Argparse.consume
       Argparse.action_tuples Argparse.match_argument Argparse.nargs firstn
       map Argparse.arg_string_of Argparse.take_actions].
  rewrite take_action_invalid; [reflexivity | |].
  - intros E. pose proof (str_not_dashes N) as D. rewrite E in D.
    discriminate D.
  - rewrite int_str_limit. apply Z.ltb_ge in L. now rewrite L.
Qed.

(** C10, as the code has it.  For every integer [N] of at most 4300 digits,
    positive or not, [--jobs N] is accepted and the last token of the build
    command is [-jN].  An integer of more digits is refused by [int]: a
    usage error with status 2, and no command is started. *)
Theorem C10_jobs_any_integer (env : Env) (N : Z) :
  let args := Argparse.mkNamespace "Release" false (int_value N) false in
  (Z.abs N < 10 ^ 4300 ->
   Argparse.parse_args ["--jobs"; Python.str N] = Argparse.ok args
   /\ build_command_of args
      = ["cmake"; "--build"; "build-release"; ("-j" ++ Python.str N)%string]
   /\ last (build_command_of args) EmptyString = ("-j" ++ Python.str N)%string
   /\ spawned (trace quiet_env ["--jobs"; Python.str N])
      = [cmake_command_of args; build_command_of args])
  /\ (10 ^ 4300 <= Z.abs N ->
      main ["--jobs"; Python.str N] env
      = ([print_usage_error (Argparse.invalid_int_value (Python.str N))],
         SystemExit 2)
      /\ spawned (trace env ["--jobs"; Python.str N]) = []
      /\ process_status env ["--jobs"; Python.str N] = 2).
Proof.
  cbn zeta. split; intros L.
  - assert (P : Argparse.parse_args ["--jobs"; Python.str N]
                = Argparse.ok
                    (Argparse.mkNamespace "Release" false (int_value N) false));
      [|split; [exact P | split; [reflexivity | split; [reflexivity|]]];
        unfold trace; rewrite (main_build _ _ _ P eq_refl); reflexivity].
    unfold Argparse.parse_args, Argparse.parse_known_args.
    rewrite (classify_option "--jobs" (Some Argparse.jobs, "--jobs", None))
      by reflexivity.
    rewrite (classify_argument (Python.str N) [])
      by (apply str_not_dashes || apply parse_optional_str).
    cbn [Argparse.classify Argparse.bind Argparse.consume
         Argparse.action_tuples Argparse.match_argument Argparse.nargs firstn
         map Argparse.arg_string_of Argparse.take_actions
         Argparse.take_action].
    rewrite get_values_str by assumption. cbn [Argparse.bind].
    destruct (Argparse.is_not_default (int_value N));
      [rewrite check_conflicts_free by reflexivity|]; reflexivity.
  - unfold process_status, status, trace.
    rewrite (jobs_beyond_limit env N L). repeat split.
Qed.

Lemma C10_witness :
  Argparse.parse_args ["--jobs"; Python.str (-5)]
  = Argparse.ok (Argparse.mkNamespace "Release" false (int_value (-5)) false)
  /\ last (build_command_of
             (Argparse.mkNamespace "Release" false (int_value (-5)) false))
       EmptyString = "-j-5".
Proof.
  destruct (C10_jobs_any_integer quiet_env (-5)) as (A & _).
  destruct A as (P & _ & L & _).
  - apply (Z.lt_le_trans _ (10 ^ 1)); [reflexivity|].
    apply Z.pow_le_mono_r; lia.
  - split; [exact P | exact L].
Defined.

(** C10 as it is written fails: the integer written as 1 and 4300 zeros is
    not accepted. *)
Lemma C10_counterexample :
  main ["--jobs"; Python.str (10 ^ 4300)] quiet_env
  = ([print_usage_error
        (Argparse.invalid_int_value (Python.str (10 ^ 4300)))],
     SystemExit 2)
  /\ spawned (trace quiet_env ["--jobs"; Python.str (10 ^ 4300)]) = []
  /\ process_status quiet_env ["--jobs"; Python.str (10 ^ 4300)] = 2.
Proof.
  assert (L : 10 ^ 4300 <= Z.abs (10 ^ 4300)).
  { rewrite Z.abs_eq by (apply Z.pow_nonneg; lia). apply Z.le_refl. }
  unfold process_status, status, trace.
  rewrite (jobs_beyond_limit quiet_env _ L). repeat split.
Qed.

(* ================================================================= *)
(** ** The build step *)

Lemma get_values_some (v : string) (n : Z) :
  Python.int v = Some n -> Argparse.get_values v = Argparse.ok (int_value n).
Proof.
  intros E. unfold Argparse.get_values.
  destruct (String.eqb_spec v "--") as [->|_]; [discriminate|]. now rewrite E.
Qed.









(* ================================================================= *)
(** ** More on the process runner *)

(** The run of [main] is one of eight. *)
Lemma trace_cases (env : Env) (argv : list string) :
  (exists e, Argparse.parse_args argv = Argparse.usage_error e
             /\ main argv env = ([print_usage_error e], SystemExit 2))
  \/ (Argparse.parse_args argv = Argparse.help_exit
      /\ main argv env = ([print_help], SystemExit 0))
  \/ (exists args, Argparse.parse_args argv = Argparse.ok args
        /\ Argparse.info_flag args = true
        /\ main argv env = ([print info_text], Returned tt))
  \/ (exists args, Argparse.parse_args argv = Argparse.ok args
        /\ Argparse.info_flag args = false
        /\ returncode env (cmake_command_of args) = None
        /\ main argv env = (configure_start env args, OSError))
  \/ (exists args c, Argparse.parse_args argv = Argparse.ok args
        /\ Argparse.info_flag args = false
        /\ returncode env (cmake_command_of args) = Some c
        /\ c <> 0
        /\ main argv env
           = (configure_events env args c
                ++ [failure_event (cmake_command_of args)],
              SystemExit c))
  \/ (exists args, Argparse.parse_args argv = Argparse.ok args
        /\ Argparse.info_flag args = false
        /\ returncode env (cmake_command_of args) = Some 0
        /\ returncode env (build_command_of args) = None
        /\ main argv env
           = (configure_events env args 0 ++ build_start args, OSError))
  \/ (exists args b, Argparse.parse_args argv = Argparse.ok args
        /\ Argparse.info_flag args = false
        /\ returncode env (cmake_command_of args) = Some 0
        /\ returncode env (build_command_of args) = Some b
        /\ b <> 0
        /\ main argv env
           = (configure_events env args 0 ++ build_events env args b
                ++ [failure_event (build_command_of args)],
              SystemExit b))
  \/ (exists args, Argparse.parse_args argv = Argparse.ok args
        /\ Argparse.info_flag args = false
        /\ returncode env (cmake_command_of args) = Some 0
        /\ returncode env (build_command_of args) = Some 0
        /\ main argv env
           = (configure_events env args 0 ++ build_events env args 0,
              Returned tt)).
Proof.
  destruct (Argparse.parse_args argv) as [args|e|] eqn:P.
  - destruct (Argparse.info_flag args) eqn:I.
    + right; right; left. exists args.
      split; [reflexivity | split; [exact I | exact (main_info env argv args P I)]].
    + rewrite (main_build env argv args P I).
      destruct (returncode env (cmake_command_of args)) as [c|] eqn:R.
      * destruct (Z.eqb_spec c 0) as [->|N].
        -- destruct (returncode env (build_command_of args)) as [b|] eqn:B.
           ++ destruct (Z.eqb_spec b 0) as [->|M].
              ** do 7 right. exists args. tauto.
              ** do 6 right; left. exists args, b. tauto.
           ++ do 5 right; left. exists args. tauto.
        -- do 4 right; left. exists args, c. tauto.
      * do 3 right; left. exists args. tauto.
  - left. exists e. split; [reflexivity | exact (main_usage_error env argv e P)].
  - right; left. split; [reflexivity | exact (main_help env argv P)].
Qed.

Ltac run_cases env argv :=
  let e := fresh "e" in
  let a := fresh "a" in
  let c := fresh "c" in
  let P := fresh "P" in
  let I := fresh "I" in
  let R := fresh "R" in
  let B := fresh "B" in
  let N := fresh "N" in
  let M := fresh "M" in
  destruct (trace_cases env argv)
    as [(e & P & M) | [(P & M) | [(a & P & I & M) | [(a & P & I & R & M)
       | [(a & c & P & I & R & N & M) | [(a & P & I & R & B & M)
       | [(a & c & P & I & R & B & N & M) | (a & P & I & R & B & M)]]]]]]].

(** X1.  When the configure command succeeds and the build command ends with a
    code [c] other than 0, both were started, the last thing printed is
    the message that names the build command, and the tool exits with the
    code [c]: its exit status is the low byte of [c], which is [c] itself
    for the codes 1 to 255 that a command can exit with, and 256 less the
    number of the signal for a command that a signal ended. *)
Theorem build_failure (env : Env) (argv : list string)
    (args : Argparse.Namespace) (c : Z) :
  Argparse.parse_args argv = Argparse.ok args ->
  Argparse.info_flag args = false ->
  returncode env (cmake_command_of args) = Some 0 ->
  returncode env (build_command_of args) = Some c ->
  c <> 0 ->
  spawned (trace env argv) = [cmake_command_of args; build_command_of args]
  /\ last (trace env argv) print_help
     = print ("Error: Command "
              ++ Python.join " " (build_command_of args) ++ " failed.")
  /\ snd (main argv env) = SystemExit c
  /\ process_status env argv = exit_status c
  /\ (0 < c < 256 -> process_status env argv = c)
  /\ (- 256 < c < 0 -> process_status env argv = 256 + c).
Proof.
  intros P I R B C. unfold process_status, trace, status.
  rewrite (main_build env argv args P I), R, B.
  destruct (Z.eqb_spec c 0) as [|_]; [contradiction|].
  cbn [Z.eqb fst snd exit_code]. show_events.
  cbn [spawned last].
  split; [reflexivity | split; [reflexivity | split; [reflexivity | split]]];
    [reflexivity | split].
  - intros H. apply exit_status_byte. lia.
  - apply exit_status_signal.
Qed.

Lemma build_failure_witness :
  spawned (trace (build_failing_env 7) ["--web"])
  = [["emcmake"; "cmake"; "-DCMAKE_BUILD_TYPE=Release"; "-B";
      "build-web-release"];
     ["cmake"; "--build"; "build-web-release"; "-j8"]]
  /\ process_status (build_failing_env 7) ["--web"] = 7.
Proof.
  destruct (build_failure (build_failing_env 7) ["--web"]
              (Argparse.mkNamespace "Release" true (int_value 8) false) 7)
    as (S & _ & _ & _ & E & _); [reflexivity | reflexivity | reflexivity
                                 | reflexivity | lia |].
  split; [exact S | apply E; lia].
Defined.

(** X2.  The tool exits with code 0 exactly when the help was asked for, or
    the command line was accepted and either held [--info] or both commands
    were run and ended with code 0. *)
Theorem exit_status_zero (env : Env) (argv : list string) :
  status env argv = 0 <->
  (Argparse.parse_args argv = Argparse.help_exit
   \/ exists args,
       Argparse.parse_args argv = Argparse.ok args
       /\ (Argparse.info_flag args = true
           \/ (returncode env (cmake_command_of args) = Some 0
               /\ returncode env (build_command_of args) = Some 0))).
Proof.
  unfold status.
  run_cases env argv; rewrite M, P; cbn [snd exit_code]; split; intros H;
    try reflexivity; try discriminate H; try (now contradiction);
    try (destruct H as [H | (b & H & _)]; discriminate H);
    try (destruct H as [H | (b & [= <-] & [H | (H1 & H2)])]; congruence);
    try (right; exists a; auto; fail).
  now left.
Qed.

(** X3.  An exit status other than 0 is the 2 of a usage error, with nothing
    started; or the 1 of the exception that [subprocess.run] raises for a
    command that cannot be started; or the low byte of the return code,
    other than 0, of the last command started. *)
Theorem exit_status_origin (env : Env) (argv : list string) :
  process_status env argv <> 0 ->
  (process_status env argv = 2
   /\ spawned (trace env argv) = []
   /\ exists e, Argparse.parse_args argv = Argparse.usage_error e)
  \/ (process_status env argv = 1
      /\ snd (main argv env) = OSError
      /\ exists args,
          Argparse.parse_args argv = Argparse.ok args
          /\ (returncode env (cmake_command_of args) = None
              \/ returncode env (build_command_of args) = None))
  \/ (exists command c,
        last (spawned (trace env argv)) [] = command
        /\ In command (spawned (trace env argv))
        /\ returncode env command = Some c
        /\ c <> 0
        /\ snd (main argv env) = SystemExit c
        /\ process_status env argv = exit_status c).
Proof.
  unfold process_status, status, trace.
  run_cases env argv; rewrite M; cbn [fst snd exit_code]; intros H;
    try (now contradiction H).
  - left. eauto.
  - right; left. eauto 7.
  - right; right. exists (cmake_command_of a), c. show_events.
    cbn [spawned last In]. auto 7.
  - right; left. eauto 7.
  - right; right. exists (build_command_of a), c. show_events.
    cbn [spawned last In]. auto 8.
Qed.

Lemma exit_status_origin_witness :
  exists command c,
    last (spawned (trace (build_failing_env 7) ["--debug"])) [] = command
    /\ In command (spawned (trace (build_failing_env 7) ["--debug"]))
    /\ returncode (build_failing_env 7) command = Some c
    /\ c <> 0
    /\ snd (main ["--debug"] (build_failing_env 7)) = SystemExit c
    /\ process_status (build_failing_env 7) ["--debug"] = exit_status c.
Proof.
  destruct (exit_status_origin (build_failing_env 7) ["--debug"])
    as [H | [H | H]].
  - discriminate.
  - destruct H as (_ & H & _). discriminate H.
  - destruct H as (_ & H & _). discriminate H.
  - exact H.
Defined.

Lemma cons_eq_inv {A : Type} (x y : A) (l l' : list A) :
  x :: l = y :: l' -> x = y /\ l = l'.
Proof. intros [= -> ->]. auto. Qed.

Ltac every_split E p tac :=
  repeat (destruct p as [|? p];
          [ rewrite app_nil_l in E;
            let H := fresh "H" in
            let T := fresh "T" in
            apply cons_eq_inv in E as [H T]; try discriminate H; tac H T
          | rewrite <- app_comm_cons in E;
            apply cons_eq_inv in E as [<- E] ]);
  destruct p; cbn [List.app] in E; discriminate E.

(** X4.  Every command is started in the base directory, right after the line
    that announces it, and the next thing the tool does is to take its
    return code. *)
Theorem spawn_announced_and_awaited (env : Env) (argv : list string)
    (p q : list event) (command : list string) (cwd : string) :
  trace env argv = p ++ spawn command cwd :: q ->
  cwd = base_dir env
  /\ (exists p',
        p = p' ++ [print ("Running: " ++ Python.join " " command)])
  /\ (exists rc q',
        returncode env command = Some rc /\ q = wait command rc :: q').
Proof.
  unfold trace. intros E.
  run_cases env argv; rewrite M in E; cbn [fst] in E; show_events;
    every_split E p
      ltac:(fun H T =>
              injection H as <- <-; subst q;
              split; [reflexivity|];
              split; [|eexists _, _; split; [eassumption | reflexivity]];
              match goal with
              | |- exists p', ?l = _ =>
                  exists (removelast l); reflexivity
              end).
Qed.

Lemma spawn_announced_and_awaited_witness :
  "/src/webgpu-gltf-viewer" = base_dir quiet_env.
Proof.
  apply (spawn_announced_and_awaited quiet_env ["--debug"]
           [print "Project base directory: /src/webgpu-gltf-viewer";
            print (configuration_details "Debug" false "build-debug"
                     (int_value 8));
            print "Running: cmake -DCMAKE_BUILD_TYPE=Debug -S . -B build-debug"]
           [wait ["cmake"; "-DCMAKE_BUILD_TYPE=Debug"; "-S"; "."; "-B";
                  "build-debug"] 0;
            print "Building project:";
            print "Running: cmake --build build-debug -j8";
            spawn ["cmake"; "--build"; "build-debug"; "-j8"]
              "/src/webgpu-gltf-viewer";
            wait ["cmake"; "--build"; "build-debug"; "-j8"] 0]
           ["cmake"; "-DCMAKE_BUILD_TYPE=Debug"; "-S"; "."; "-B"; "build-debug"]).
  reflexivity.
Defined.

(** X5.  A command that ends with a code other than 0 stops the tool: the only
    thing that follows is the message that names it, and the tool exits
    with that code.  Its exit status is the low byte of the code: the code
    itself from 1 to 255, and 256 less the number of the signal for a
    command that a signal ended. *)
Theorem failure_stops (env : Env) (argv : list string)
    (p q : list event) (command : list string) (rc : Z) :
  trace env argv = p ++ wait command rc :: q ->
  rc <> 0 ->
  q = [print ("Error: Command " ++ Python.join " " command ++ " failed.")]
  /\ snd (main argv env) = SystemExit rc
  /\ process_status env argv = exit_status rc
  /\ (0 < rc < 256 -> process_status env argv = rc)
  /\ (- 256 < rc < 0 -> process_status env argv = 256 + rc).
Proof.
  unfold process_status, trace, status. intros E N.
  assert (Q : q = [print ("Error: Command " ++ Python.join " " command
                          ++ " failed.")]
              /\ snd (main argv env) = SystemExit rc).
  { run_cases env argv; rewrite M in E |- *; cbn [fst snd] in E |- *;
      show_events;
      every_split E p
        ltac:(fun H T =>
                injection H as <- <-; subst q;
                first [ contradiction | split; reflexivity ]). }
  destruct Q as (-> & ->). cbn [exit_code].
  split; [reflexivity | split; [reflexivity | split; [reflexivity | split]]].
  - intros H. apply exit_status_byte. lia.
  - apply exit_status_signal.
Qed.

Lemma failure_stops_witness :
  process_status (failing_env 3) ["--web"] = 3.
Proof.
  destruct (failure_stops (failing_env 3) ["--web"]
           [print "Project base directory: /src/webgpu-gltf-viewer";
            print (configuration_details "Release" true "build-web-release"
                     (int_value 8));
            print "Running: emcmake cmake -DCMAKE_BUILD_TYPE=Release -B build-web-release";
            spawn ["emcmake"; "cmake"; "-DCMAKE_BUILD_TYPE=Release"; "-B";
                   "build-web-release"] "/src/webgpu-gltf-viewer"]
           [print "Error: Command emcmake cmake -DCMAKE_BUILD_TYPE=Release -B build-web-release failed."]
           ["emcmake"; "cmake"; "-DCMAKE_BUILD_TYPE=Release"; "-B";
            "build-web-release"] 3) as (_ & _ & _ & E & _).
  - reflexivity.
  - lia.
  - apply E. lia.
Defined.

(** X16.  A command that cannot be started ends the tool with the exception
    of [subprocess.run], which [run_command] does not catch: the line that
    announces the command is the last thing the tool prints, no failure
    message follows, no command is started after, and the exit status
    is 1. *)
Theorem start_failure (env : Env) (argv : list string)
    (args : Argparse.Namespace) :
  Argparse.parse_args argv = Argparse.ok args ->
  Argparse.info_flag args = false ->
  (returncode env (cmake_command_of args) = None ->
   trace env argv = configure_start env args
   /\ spawned (trace env argv) = []
   /\ process_status env argv = 1)
  /\ (returncode env (cmake_command_of args) = Some 0 ->
      returncode env (build_command_of args) = None ->
      trace env argv = configure_events env args 0 ++ build_start args
      /\ spawned (trace env argv) = [cmake_command_of args]
      /\ process_status env argv = 1)
  /\ (snd (main argv env) = OSError ->
      exists command,
        (command = cmake_command_of args \/ command = build_command_of args)
        /\ returncode env command = None
        /\ last (trace env argv) print_help
           = print ("Running: " ++ Python.join " " command)).
Proof.
  intros P I. unfold process_status, status, trace.
  rewrite (main_build env argv args P I).
  split; [|split].
  - intros ->. cbn [fst snd exit_code]. repeat split.
  - intros -> ->. cbn [Z.eqb fst snd exit_code]. show_events. repeat split.
  - destruct (returncode env (cmake_command_of args)) as [c|] eqn:R.
    + destruct (c =? 0).
      * destruct (returncode env (build_command_of args)) as [b|] eqn:B.
        -- destruct (b =? 0); discriminate.
        -- intros _. exists (build_command_of args). show_events. auto.
      * discriminate.
    + intros _. exists (cmake_command_of args). show_events. auto.
Qed.

Lemma start_failure_witness :
  trace no_emcmake_env ["--web"]
  = [print "Project base directory: /src/webgpu-gltf-viewer";
     print (configuration_details "Release" true "build-web-release"
              (int_value 8));
     print "Running: emcmake cmake -DCMAKE_BUILD_TYPE=Release -B build-web-release"]
  /\ process_status no_emcmake_env ["--web"] = 1.
Proof.
  destruct (start_failure no_emcmake_env ["--web"]
              (Argparse.mkNamespace "Release" true (int_value 8) false))
    as (A & _); [reflexivity | reflexivity |].
  destruct A as (T & _ & S); [reflexivity|].
  split; [exact T | exact S].
Defined.

(* ================================================================= *)
(** ** More on the command composer *)

(** X6.  Two configurations share a build directory exactly when they agree
    on the target and on being a debug build: the four directories are
    distinct, and every build type other than [Debug] goes to the release
    directory of its target. *)
Theorem build_dir_injective (a b : Argparse.Namespace) :
  (build_dir_of a = build_dir_of b <->
   Argparse.web_flag a = Argparse.web_flag b
   /\ (Argparse.build_type a = "Debug" <-> Argparse.build_type b = "Debug"))
  /\ (Argparse.build_type a <> "Debug" ->
      build_dir_of a
      = if Argparse.web_flag a then "build-web-release" else "build-release").
Proof.
  unfold build_dir_of, compose.
  destruct (Argparse.web_flag a), (Argparse.web_flag b);
    destruct (String.eqb_spec (Argparse.build_type a) "Debug");
    destruct (String.eqb_spec (Argparse.build_type b) "Debug");
    cbn [fst]; (split; [split|]);
    try (intros E; discriminate E);
    try (intros (E & F); discriminate E);
    try tauto.
Qed.

Lemma build_dir_injective_witness :
  build_dir_of (Argparse.mkNamespace "Release" true (int_value 2) false)
  = build_dir_of (Argparse.mkNamespace "RelWithDebInfo" true empty_list true)
  /\ build_dir_of (Argparse.mkNamespace "RelWithDebInfo" true empty_list true)
     = "build-web-release".
Proof.
  destruct (build_dir_injective
              (Argparse.mkNamespace "RelWithDebInfo" true empty_list true)
              (Argparse.mkNamespace "Release" true (int_value 2) false))
    as ((_ & E) & R).
  split.
  - symmetry. apply E. split; [reflexivity|]. split; discriminate.
  - apply R. discriminate.
Defined.

(* ================================================================= *)
(** ** More on the parser *)

(** X7.  The help is printed only for a command line that asks for it, with a
    token that starts with [-h] or [--h]. *)
Theorem help_only_when_asked (env : Env) (argv : list string) :
  In print_help (trace env argv) ->
  Exists (fun s => mentions_help s = true) argv.
Proof.
  unfold trace.
  run_cases env argv; rewrite M; cbn [fst]; show_events; cbn [In];
    intros H.
  1, 3-8: exfalso;
    repeat (destruct H as [H|H]; [discriminate H|]); contradiction.
  clear H M.
  unfold Argparse.parse_args, Argparse.parse_known_args in P.
  destruct (Argparse.classify argv) as [toks| |] eqn:C;
    [|discriminate|now apply classify_not_help in C].
  cbn [Argparse.bind] in P.
  destruct (Argparse.consume Argparse.initial toks) as [st| |] eqn:K.
  - cbn [Argparse.bind] in P. destruct (Argparse.extras st); discriminate.
  - discriminate.
  - apply consume_help_inv in K; [|eapply classify_registered; eassumption].
    eapply classify_help; eassumption.
Qed.

Lemma help_only_when_asked_witness :
  Exists (fun s => mentions_help s = true) ["--web"; "--he"; "--bogus"].
Proof.
  apply (help_only_when_asked quiet_env ["--web"; "--he"; "--bogus"]).
  left. reflexivity.
Defined.

(** When the loop accepts and leaves no extra, every token was used. *)
Lemma consume_all_used (toks : list Argparse.token) :
  Forall registered toks ->
  forall st st',
    Argparse.consume st toks = Argparse.ok st' -> Argparse.extras st' = [] ->
    Forall used toks.
Proof.
  pattern toks. apply tokens_ind2; clear toks.
  - constructor.
  - intros t rest IH1 IH2 R st st' C E.
    inversion R as [|? ? Rt Rr]; subst.
    rewrite consume_step in C.
    destruct (step st t rest) as [[st1 rest1]| |] eqn:S; try discriminate.
    cbn [Argparse.bind] in C. apply step_ok_inv in S; [|assumption].
    assert (R1 : Forall registered rest1).
    { destruct (took_rest _ _ _ _ _ S) as [-> | (v & ->)]; trivial.
      now inversion Rr. }
    destruct S as [t rest H0 | s os a rest st1 Ha Hj T
                   | s os x rest st1 T | s os v rest st1 T].
    + exfalso. eapply (consume_extras rest); try eassumption.
      cbn. destruct (Argparse.extras st); discriminate.
    + constructor; [exact I | eapply IH1; eassumption].
    + constructor; [exact I | eapply IH1; eassumption].
    + constructor; [exact I|]. constructor.
      * apply take_action_jobs_inv in T as (G & _). cbn. eauto.
      * eapply (IH2 v rest eq_refl); eassumption.
Qed.

(** Each string of the command line is among the tokens, with what
    [_parse_optional] said of it, unless a [--] came first. *)
Lemma classify_token_of (arg_strings : list string)
    (toks : list Argparse.token) (s : string) :
  Argparse.classify arg_strings = Argparse.ok toks -> In s arg_strings ->
  In Argparse.dashes toks
  \/ (s <> "--"
      /\ ((Argparse.parse_optional s = Argparse.positional
           /\ In (Argparse.A s) toks)
          \/ exists tu, Argparse.parse_optional s = Argparse.optional tu
                        /\ In (Argparse.O s tu) toks)).
Proof.
  revert toks. induction arg_strings as [|x l IH]; intros toks C I;
    [contradiction|].
  cbn [Argparse.classify] in C. destruct (String.eqb_spec x "--") as [->|N].
  - injection C as <-. left. now left.
  - destruct (Argparse.parse_optional x) as [|tu|e] eqn:P; try discriminate;
      (destruct (Argparse.classify l) as [ts| |]; try discriminate);
      injection C as <-;
      (destruct I as [->|I];
       [ right; split; [exact N|]
       | destruct (IH ts eq_refl I) as [D | (Ns & [(Q & J) | (tv & Q & J)])];
         [ left; now right
         | right; split; [exact Ns|]; left; split; [exact Q | now right]
         | right; split; [exact Ns|]; right; exists tv;
           split; [exact Q | now right] ] ]).
    + left. split; [exact P | now left].
    + right. exists tu. split; [exact P | now left].
Qed.

(** X8.  An accepted command line holds nothing but options of the parser and
    integers: no unknown flag, no stray word, no [--]. *)
Theorem only_known_tokens (argv : list string) (args : Argparse.Namespace) :
  Argparse.parse_args argv = Argparse.ok args ->
  Forall (fun s => recognised s \/ integer_literal s) argv
  /\ ~ In "--" argv.
Proof.
  intros P. apply parse_args_ok_inv in P as (toks & st & C & K & E & _).
  pose proof (classify_registered argv toks C) as R.
  pose proof (consume_all_used toks R _ _ K E) as U.
  rewrite Forall_forall in U.
  assert (F : Forall (fun s => recognised s \/ integer_literal s) argv).
  { apply Forall_forall. intros s I.
    destruct (classify_token_of argv toks s C I)
      as [D | (N & [(Q & J) | (tu & Q & J)])].
    - destruct (U _ D).
    - right. destruct (U _ J) as (jv & G).
      apply get_values_int in G as (n & G & _); [|exact N]. now exists n.
    - left. specialize (U _ J). destruct tu as [[[a|] os] e]; [|destruct U].
      now exists a, os, e. }
  split; [exact F|]. intros I. rewrite Forall_forall in F.
  destruct (F _ I) as [(a & os & e & H) | (n & H)]; discriminate H.
Qed.

Lemma only_known_tokens_witness :
  Forall (fun s => recognised s \/ integer_literal s)
    ["--deb"; "-j"; "-12"; "--web"]
  /\ ~ In "--" ["--deb"; "-j"; "-12"; "--web"].
Proof.
  apply (only_known_tokens ["--deb"; "-j"; "-12"; "--web"]
           (Argparse.mkNamespace "Debug" true (int_value (-12)) false)).
  reflexivity.
Defined.

Lemma take_action_flag_fields (a : Argparse.Action)
    (st st1 : Argparse.state) :
  a <> Argparse.help -> a <> Argparse.jobs ->
  Argparse.take_action a [] st = Argparse.ok st1 ->
  Argparse.build_type (Argparse.namespace st1)
  = match a with
    | Argparse.debug => "Debug"
    | Argparse.release => "Release"
    | _ => Argparse.build_type (Argparse.namespace st)
    end
  /\ Argparse.web_flag (Argparse.namespace st1)
     = match a with
       | Argparse.web => true
       | _ => Argparse.web_flag (Argparse.namespace st)
       end.
Proof.
  intros H J.
  destruct a; try congruence; cbn [Argparse.take_action];
    unfold Argparse.check_conflicts; cbn [Argparse.action_conflicts find].
  3,4: intros [= <-]; cbn; tauto.
  all: match goal with
       | |- context [Argparse.seen ?c ?s] => destruct (Argparse.seen c s)
       end; cbn [Argparse.bind]; [discriminate|].
  all: intros [= <-]; cbn; tauto.
Qed.

Lemma take_action_jobs_fields (x : string) (st st1 : Argparse.state) :
  Argparse.take_action Argparse.jobs [x] st = Argparse.ok st1 ->
  Argparse.build_type (Argparse.namespace st1)
  = Argparse.build_type (Argparse.namespace st)
  /\ Argparse.web_flag (Argparse.namespace st1)
     = Argparse.web_flag (Argparse.namespace st).
Proof.
  cbn [Argparse.take_action].
  destruct (Argparse.get_values x) as [v| |]; try discriminate.
  cbn [Argparse.bind]. destruct (Argparse.is_not_default v);
    [rewrite check_conflicts_free by reflexivity|];
    cbn [Argparse.bind]; intros [= <-]; cbn; tauto.
Qed.

(** A flag of an accepted command line has its turn. *)
Lemma flag_reached (f : string) (a : Argparse.Action) (argv : list string)
    (toks : list Argparse.token) (st : Argparse.state) :
  Argparse.classify argv = Argparse.ok toks -> In f argv ->
  Argparse.parse_optional f = Argparse.optional (Some a, f, None) ->
  a <> Argparse.help -> a <> Argparse.jobs ->
  Argparse.consume Argparse.initial toks = Argparse.ok st ->
  Argparse.extras st = [] ->
  exists st0 st1 rest1,
    Argparse.take_action a [] st0 = Argparse.ok st1
    /\ Argparse.consume st1 rest1 = Argparse.ok st
    /\ Forall registered rest1.
Proof.
  intros C I P Ha Hj K E.
  pose proof (classify_registered argv toks C) as R.
  destruct (classify_In argv toks f _ C I P) as [T|T].
  - apply in_split in T as (l1 & l2 & ->).
    apply consume_reaches in K as (st0 & st1 & rest1 & T & K1);
      [|discriminate|assumption].
    exists st0, st1, rest1.
    assert (R1 : Forall registered rest1).
    { apply Forall_app in R as [_ R]. inversion R as [|? ? _ R2]; subst.
      destruct (took_rest _ _ _ _ _ T) as [-> | (v & ->)]; trivial.
      now inversion R2. }
    inversion T; subst; try discriminate; try congruence. auto.
  - exfalso.
    eapply (consume_surely_extra toks Argparse.dashes); try eassumption.
    split; [reflexivity | discriminate].
Qed.

(** Without a token that starts with the key of an option, no token
    selects its action. *)
Lemma classify_absent (a : Argparse.Action) (k : string)
    (argv : list string) (toks : list Argparse.token) :
  (forall os, In (os, a) Argparse.option_string_actions -> key os = k) ->
  Argparse.classify argv = Argparse.ok toks ->
  Forall (fun s => Python.startswith s k = false) argv ->
  Forall (fun t => head_action t <> Some a) toks.
Proof.
  intros Hk C F. apply classify_faithful in C.
  eapply Forall_impl; [|exact C].
  intros t [I P] H. rewrite Forall_forall in F. specialize (F _ I).
  destruct t as [s|s [[oa os] e]|]; cbn in H; try discriminate.
  subst oa. destruct P as [_ P].
  apply parse_optional_spec in P as (L & K & _).
  apply lookup_In in L. rewrite (Hk os L) in K.
  cbn [Argparse.arg_string_of] in F. congruence.
Qed.

(** X9.  On an accepted command line, [--debug] gives the build type [Debug],
    [--release] gives [Release], and so does the absence of any token that
    starts with [--d]. *)
Theorem build_type_decided (argv : list string) (args : Argparse.Namespace) :
  Argparse.parse_args argv = Argparse.ok args ->
  (In "--debug" argv -> Argparse.build_type args = "Debug")
  /\ (In "--release" argv -> Argparse.build_type args = "Release")
  /\ (Forall (fun s => Python.startswith s "--d" = false) argv ->
      Argparse.build_type args = "Release").
Proof.
  intros P. apply parse_args_ok_inv in P as (toks & st & C & K & E & <-).
  pose proof (classify_registered argv toks C) as R.
  split; [|split]; intros H.
  - destruct (flag_reached "--debug" Argparse.debug argv toks st C H eq_refl)
      as (st0 & st1 & rest1 & T & K1 & R1); try discriminate; trivial.
    destruct (take_action_flag_fields Argparse.debug st0 st1) as [B _];
      try discriminate; trivial.
    apply take_action_flag_inv in T as (S & _); try discriminate.
    apply (consume_invariant (fun _ => True)
             (fun s => Argparse.seen Argparse.debug s = true
                       /\ Argparse.build_type (Argparse.namespace s) = "Debug"))
      with (toks := rest1) (st := st1); trivial.
    + intros s0 t rest s1 rest' _ _ T' [Sd Bd].
      split; [eapply took_seen; try eassumption; discriminate|].
      destruct T' as [t rest H0 | s os a rest s1 Ha Hj T'
                      | s os x rest s1 T' | s os v rest s1 T'].
      * exact Bd.
      * pose proof (take_action_flag_fields _ _ _ Ha Hj T') as [B' _].
        apply take_action_flag_inv in T' as (_ & _ & X & _); trivial.
        rewrite B'. destruct a; trivial.
        specialize (X Argparse.debug (or_introl eq_refl)). congruence.
      * apply take_action_jobs_fields in T' as [-> _]. exact Bd.
      * apply take_action_jobs_fields in T' as [-> _]. exact Bd.
    + apply Forall_forall. trivial.
    + split; [|exact B]. now rewrite (seen_cons _ _ _ _ S).
  - destruct (flag_reached "--release" Argparse.release argv toks st C H
                eq_refl)
      as (st0 & st1 & rest1 & T & K1 & R1); try discriminate; trivial.
    destruct (take_action_flag_fields Argparse.release st0 st1) as [B _];
      try discriminate; trivial.
    apply take_action_flag_inv in T as (S & _); try discriminate.
    apply (consume_invariant (fun _ => True)
             (fun s => Argparse.seen Argparse.release s = true
                       /\ Argparse.build_type (Argparse.namespace s)
                          = "Release"))
      with (toks := rest1) (st := st1); trivial.
    + intros s0 t rest s1 rest' _ _ T' [Sd Bd].
      split; [eapply took_seen; try eassumption; discriminate|].
      destruct T' as [t rest H0 | s os a rest s1 Ha Hj T'
                      | s os x rest s1 T' | s os v rest s1 T'].
      * exact Bd.
      * pose proof (take_action_flag_fields _ _ _ Ha Hj T') as [B' _].
        apply take_action_flag_inv in T' as (_ & _ & X & _); trivial.
        rewrite B'. destruct a; trivial.
        specialize (X Argparse.release (or_introl eq_refl)). congruence.
      * apply take_action_jobs_fields in T' as [-> _]. exact Bd.
      * apply take_action_jobs_fields in T' as [-> _]. exact Bd.
    + apply Forall_forall. trivial.
    + split; [|exact B]. now rewrite (seen_cons _ _ _ _ S).
  - apply (consume_invariant
             (fun t => head_action t <> Some Argparse.debug)
             (fun s => Argparse.build_type (Argparse.namespace s) = "Release"))
      with (toks := toks) (st := Argparse.initial); trivial.
    + intros s0 t rest s1 rest' Q _ T' Bd.
      destruct T' as [t rest H0 | s os a rest s1 Ha Hj T'
                      | s os x rest s1 T' | s os v rest s1 T'].
      * exact Bd.
      * apply take_action_flag_fields in T' as [-> _]; trivial.
        destruct a; trivial. now destruct Q.
      * apply take_action_jobs_fields in T' as [-> _]. exact Bd.
      * apply take_action_jobs_fields in T' as [-> _]. exact Bd.
    + apply (classify_absent Argparse.debug "--d" argv); trivial.
      intros os L. table_cases L. reflexivity.
Qed.

Lemma build_type_decided_witness :
  Argparse.build_type
    (Argparse.mkNamespace "Debug" true (int_value 8) false) = "Debug"
  /\ Argparse.build_type
       (Argparse.mkNamespace "Release" false (int_value 2) false) = "Release".
Proof.
  split.
  - apply (build_type_decided ["--web"; "--debug"]); [reflexivity | simpl; tauto].
  - apply (build_type_decided ["-j2"]); [reflexivity | repeat constructor].
Defined.

(** X10.  On an accepted command line, [--web] selects the web tool chain, whose
    configure command starts with [emcmake]; without any token that starts
    with [--w] the target is native and the command starts with [cmake]. *)
Theorem target_decided (argv : list string) (args : Argparse.Namespace) :
  Argparse.parse_args argv = Argparse.ok args ->
  (In "--web" argv ->
   Argparse.web_flag args = true
   /\ hd EmptyString (cmake_command_of args) = "emcmake")
  /\ (Forall (fun s => Python.startswith s "--w" = false) argv ->
      Argparse.web_flag args = false
      /\ hd EmptyString (cmake_command_of args) = "cmake").
Proof.
  intros P.
  assert (W : hd EmptyString (cmake_command_of args)
              = if Argparse.web_flag args then "emcmake" else "cmake").
  { unfold cmake_command_of, compose.
    destruct (Argparse.web_flag args); reflexivity. }
  rewrite W. clear W.
  apply parse_args_ok_inv in P as (toks & st & C & K & E & <-).
  pose proof (classify_registered argv toks C) as R.
  split; intros H.
  - enough (F : Argparse.web_flag (Argparse.namespace st) = true)
      by (rewrite F; auto).
    destruct (flag_reached "--web" Argparse.web argv toks st C H eq_refl)
      as (st0 & st1 & rest1 & T & K1 & R1); try discriminate; trivial.
    destruct (take_action_flag_fields Argparse.web st0 st1) as [_ B];
      try discriminate; trivial.
    apply (consume_invariant (fun _ => True)
             (fun s => Argparse.web_flag (Argparse.namespace s) = true))
      with (toks := rest1) (st := st1); trivial.
    + intros s0 t rest s1 rest' _ _ T' Bd.
      destruct T' as [t rest H0 | s os a rest s1 Ha Hj T'
                      | s os x rest s1 T' | s os v rest s1 T'].
      * exact Bd.
      * apply take_action_flag_fields in T' as [_ ->]; trivial.
        destruct a; trivial.
      * apply take_action_jobs_fields in T' as [_ ->]. exact Bd.
      * apply take_action_jobs_fields in T' as [_ ->]. exact Bd.
    + apply Forall_forall. trivial.
  - enough (F : Argparse.web_flag (Argparse.namespace st) = false)
      by (rewrite F; auto).
    apply (consume_invariant
             (fun t => head_action t <> Some Argparse.web)
             (fun s => Argparse.web_flag (Argparse.namespace s) = false))
      with (toks := toks) (st := Argparse.initial); trivial.
    + intros s0 t rest s1 rest' Q _ T' Bd.
      destruct T' as [t rest H0 | s os a rest s1 Ha Hj T'
                      | s os x rest s1 T' | s os v rest s1 T'].
      * exact Bd.
      * apply take_action_flag_fields in T' as [_ ->]; trivial.
        destruct a; trivial. now destruct Q.
      * apply take_action_jobs_fields in T' as [_ ->]. exact Bd.
      * apply take_action_jobs_fields in T' as [_ ->]. exact Bd.
    + apply (classify_absent Argparse.web "--w" argv); trivial.
      intros os L. table_cases L. reflexivity.
Qed.

Lemma target_decided_witness :
  hd EmptyString
    (cmake_command_of (Argparse.mkNamespace "Debug" true (int_value 8) false))
  = "emcmake"
  /\ hd EmptyString
       (cmake_command_of
          (Argparse.mkNamespace "Debug" false (int_value 8) false))
     = "cmake".
Proof.
  split.
  - apply (target_decided ["--debug"; "--web"]); [reflexivity | simpl; tauto].
  - apply (target_decided ["--debug"]); [reflexivity | repeat constructor].
Defined.

(** X11.  An accepted command line without any token that starts with [--i]
    always goes on to the build: the run starts with the base directory,
    the configuration details and the line that announces the configure
    command; and the configure command is the first command started, when
    it can be started, and whenever any command is. *)
Theorem build_unless_info (env : Env) (argv : list string)
    (args : Argparse.Namespace) :
  Argparse.parse_args argv = Argparse.ok args ->
  Forall (fun s => Python.startswith s "--i" = false) argv ->
  Argparse.info_flag args = false
  /\ (exists rest, trace env argv = configure_start env args ++ rest)
  /\ (forall rc, returncode env (cmake_command_of args) = Some rc ->
      hd_error (spawned (trace env argv)) = Some (cmake_command_of args))
  /\ (forall command, In command (spawned (trace env argv)) ->
      hd_error (spawned (trace env argv)) = Some (cmake_command_of args)).
Proof.
  intros P F.
  assert (I : Argparse.info_flag args = false).
  { apply parse_args_ok_inv in P as (toks & st & C & K & E & <-).
    pose proof (classify_registered argv toks C) as R.
    apply (consume_invariant
             (fun t => head_action t <> Some Argparse.info)
             (fun s => Argparse.info_flag (Argparse.namespace s) = false))
      with (toks := toks) (st := Argparse.initial); trivial.
    - intros s0 t rest s1 rest' Q _ T' Bd.
      destruct T' as [t rest H0 | s os a rest s1 Ha Hj T'
                      | s os x rest s1 T' | s os v rest s1 T'].
      + exact Bd.
      + apply take_action_flag_inv in T' as (_ & _ & _ & _ & ->); trivial.
        rewrite Bd. destruct a; trivial. now destruct Q.
      + apply take_action_jobs_inv in T' as (_ & _ & -> & _). exact Bd.
      + apply take_action_jobs_inv in T' as (_ & _ & -> & _). exact Bd.
    - apply (classify_absent Argparse.info "--i" argv); trivial.
      intros os L. table_cases L. reflexivity. }
  split; [exact I|]. unfold trace. rewrite (main_build env argv args P I).
  destruct (returncode env (cmake_command_of args)) as [c|];
    [destruct (c =? 0);
     [destruct (returncode env (build_command_of args)) as [b|];
      [destruct (b =? 0)|]|]|];
    cbn [fst]; unfold configure_events; rewrite <- ?app_assoc;
    (split; [eexists; try reflexivity; symmetry; apply app_nil_r|]);
    show_events; cbn [spawned hd_error In]; (split; [|tauto]);
    intros rc E; try reflexivity; discriminate E.
Qed.

Lemma build_unless_info_witness :
  hd_error (spawned (trace (failing_env 1) ["--release"; "-j"; "2"]))
  = Some ["cmake"; "-DCMAKE_BUILD_TYPE=Release"; "-S"; "."; "-B";
          "build-release"].
Proof.
  destruct (build_unless_info (failing_env 1) ["--release"; "-j"; "2"]
              (Argparse.mkNamespace "Release" false (int_value 2) false))
    as (_ & _ & H & _); [reflexivity | repeat constructor |].
  exact (H 1 eq_refl).
Defined.

Lemma consume_jobs_attached (s os x : string) (n : Z) :
  Python.int x = Some n ->
  Argparse.lookup os Argparse.option_string_actions = Some Argparse.jobs ->
  exists st,
    Argparse.consume Argparse.initial
      [Argparse.O s (Some Argparse.jobs, os, Some x)] = Argparse.ok st
    /\ Argparse.extras st = []
    /\ Argparse.namespace st
       = Argparse.mkNamespace "Release" false (int_value n) false.
Proof.
  intros E L. rewrite consume_step.
  rewrite (step_option Argparse.initial s os Argparse.jobs (Some x) [] L)
    by discriminate.
  cbn [Argparse.take_action]. rewrite (get_values_some x n E).
  cbn [Argparse.bind].
  destruct (Argparse.is_not_default (int_value n));
    [rewrite check_conflicts_free by reflexivity|];
    cbn [Argparse.bind Argparse.consume]; eexists; repeat split.
Qed.

Lemma jobs_attached_accepted (N : Z) :
  Z.abs N < 10 ^ 4300 ->
  Argparse.parse_args [("-j" ++ Python.str N)%string]
  = Argparse.ok (Argparse.mkNamespace "Release" false (int_value N) false).
Proof.
  intros B. destruct (str_first N) as (c & v & E & Nc).
  unfold Argparse.parse_args, Argparse.parse_known_args.
  rewrite E.
  assert (D : String.eqb ("-j" ++ String c v) "--" = false) by reflexivity.
  rewrite (classify_option _ _ _ D (parse_optional_attached c v Nc)).
  cbn [Argparse.classify Argparse.bind].
  destruct (consume_jobs_attached ("-j" ++ String c v) "-j" (String c v) N)
    as (st & -> & X & Ns); [rewrite <- E; now apply int_str | reflexivity|].
  cbn [Argparse.bind]. now rewrite X, Ns.
Qed.

Lemma jobs_equals_accepted (N : Z) :
  Z.abs N < 10 ^ 4300 ->
  Argparse.parse_args [("--jobs=" ++ Python.str N)%string]
  = Argparse.ok (Argparse.mkNamespace "Release" false (int_value N) false).
Proof.
  intros B. unfold Argparse.parse_args, Argparse.parse_known_args.
  assert (D : String.eqb ("--jobs=" ++ Python.str N) "--" = false)
    by reflexivity.
  rewrite (classify_option _ _ _ D
             (parse_optional_equals "--jobs" (Python.str N)
                (or_introl eq_refl))).
  cbn [Argparse.classify Argparse.bind].
  destruct (consume_jobs_attached ("--jobs=" ++ Python.str N) "--jobs"
              (Python.str N) N)
    as (st & -> & X & Ns); [now apply int_str | reflexivity|].
  cbn [Argparse.bind]. now rewrite X, Ns.
Qed.

(** The job count of an accepted command line is the default, or an
    integer that [int] has read, or the empty list. *)
Lemma jobs_read (argv : list string) (args : Argparse.Namespace) (n : Z) :
  Argparse.parse_args argv = Argparse.ok args ->
  Argparse.jobs_count args = int_value n ->
  n = 8 \/ exists v, Python.int v = Some n.
Proof.
  intros P. apply parse_args_ok_inv in P as (toks & st & C & K & E & <-).
  pose proof (classify_registered argv toks C) as R.
  revert n.
  apply (consume_invariant (fun _ => True)
           (fun s => forall n,
                Argparse.jobs_count (Argparse.namespace s) = int_value n ->
                n = 8 \/ exists v, Python.int v = Some n))
    with (toks := toks) (st := Argparse.initial); trivial.
  - intros s0 t rest s1 rest1 _ _ T H.
    assert (G : forall x, Argparse.get_values x
                          = Argparse.ok (Argparse.jobs_count
                                           (Argparse.namespace s1)) ->
                forall n,
                  Argparse.jobs_count (Argparse.namespace s1) = int_value n ->
                  n = 8 \/ exists v, Python.int v = Some n).
    { intros x G n J. rewrite J in G. unfold Argparse.get_values in G.
      destruct (String.eqb x "--"); [discriminate|].
      destruct (Python.int x) as [m|] eqn:Q; [|discriminate].
      injection G as ->. eauto. }
    destruct T as [t rest H0 | s os a rest st' Ha Hj T
                   | s os x rest st' T | s os v rest st' T].
    + exact H.
    + apply take_action_flag_inv in T as (_ & _ & _ & -> & _); trivial.
    + apply take_action_jobs_inv in T as (Q & _). exact (G x Q).
    + apply take_action_jobs_inv in T as (Q & _). exact (G v Q).
  - apply Forall_forall. trivial.
  - intros n [= <-]. now left.
Qed.

(** X12.  For every integer [N] within the limit of [int], at most 4300
    digits, the spellings [-jN] and [--jobs=N] are accepted and give the
    job count [N], like [--jobs N]: the token that ends the build command
    is itself an argument the tool accepts. *)
Theorem jobs_attached_spellings (N : Z) :
  Z.abs N < 10 ^ 4300 ->
  let args := Argparse.mkNamespace "Release" false (int_value N) false in
  Argparse.parse_args [("-j" ++ Python.str N)%string] = Argparse.ok args
  /\ Argparse.parse_args [("--jobs=" ++ Python.str N)%string] = Argparse.ok args
  /\ Argparse.parse_args [last (build_command_of args) EmptyString]
     = Argparse.ok args.
Proof.
  intros B. cbn zeta.
  split; [now apply jobs_attached_accepted | split].
  - now apply jobs_equals_accepted.
  - now apply jobs_attached_accepted.
Qed.

Lemma jobs_attached_spellings_witness :
  Argparse.parse_args ["-j-12"]
  = Argparse.ok (Argparse.mkNamespace "Release" false (int_value (-12)) false)
  /\ Argparse.parse_args ["--jobs=-12"]
     = Argparse.ok
         (Argparse.mkNamespace "Release" false (int_value (-12)) false).
Proof.
  destruct (jobs_attached_spellings (-12)) as (A & B & _).
  - apply (Z.lt_le_trans _ (10 ^ 2)); [reflexivity|].
    apply Z.pow_le_mono_r; lia.
  - split; [exact A | exact B].
Defined.

(** X17.  The job count of an accepted command line, when it is an integer,
    is within the limit of the interpreter: at most 4300 digits, so that
    writing it into the build command and the configuration details cannot
    fail, and [int] reads back what [str] wrote.  The token that ends the
    build command is then itself an argument the tool accepts, with the
    same job count. *)
Theorem jobs_within_limit (argv : list string) (args : Argparse.Namespace)
    (n : Z) :
  Argparse.parse_args argv = Argparse.ok args ->
  Argparse.jobs_count args = int_value n ->
  Z.abs n < 10 ^ 4300
  /\ Python.int (Python.str n) = Some n
  /\ last (build_command_of args) EmptyString = ("-j" ++ Python.str n)%string
  /\ Argparse.parse_args [last (build_command_of args) EmptyString]
     = Argparse.ok (Argparse.mkNamespace "Release" false (int_value n) false).
Proof.
  intros P J.
  assert (B : Z.abs n < 10 ^ 4300).
  { destruct (jobs_read argv args n P J) as [-> | (v & E)].
    - apply (Z.lt_le_trans _ (10 ^ 1)); [reflexivity|].
      apply Z.pow_le_mono_r; lia.
    - now apply int_within_limit in E. }
  assert (L : last (build_command_of args) EmptyString
              = ("-j" ++ Python.str n)%string).
  { unfold build_command_of, compose. rewrite J.
    destruct (Argparse.web_flag args); reflexivity. }
  split; [exact B | split; [now apply int_str | split; [exact L|]]].
  rewrite L. now apply jobs_attached_accepted.
Qed.

Lemma jobs_within_limit_witness :
  Python.int (Python.str 12) = Some 12
  /\ Argparse.parse_args ["-j12"]
     = Argparse.ok (Argparse.mkNamespace "Release" false (int_value 12) false).
Proof.
  destruct (jobs_within_limit ["--web"; "--jobs"; "0_12"; "--debug"]
              (Argparse.mkNamespace "Debug" true (int_value 12) false) 12)
    as (_ & E & _ & A); [reflexivity | reflexivity |].
  split; [exact E | exact A].
Defined.

(* ================================================================= *)
(** ** Abbreviations *)

Lemma similar_refl_list (l : list Argparse.token) : Forall2 similar l l.
Proof. induction l; constructor; trivial. constructor. Qed.

Lemma following_similar (a : Argparse.Action) (r r' : list Argparse.token) :
  Forall2 similar r r' ->
  Argparse.bind (Argparse.match_argument a r)
    (fun n => Argparse.ok ([(a, map Argparse.arg_string_of (firstn n r))], n))
  = Argparse.bind (Argparse.match_argument a r')
      (fun n => Argparse.ok ([(a, map Argparse.arg_string_of (firstn n r'))], n)).
Proof.
  intros F. unfold Argparse.match_argument.
  destruct (Argparse.nargs a); [reflexivity|].
  destruct F as [|t t' r r' S F]; [reflexivity|].
  destruct S as [[v| |]|]; reflexivity.
Qed.

Lemma explicit_chain_similar (x : string) :
  forall (a : Argparse.Action) (os : string) (r r' : list Argparse.token),
    Forall2 similar r r' ->
    Argparse.explicit_chain a os x r = Argparse.explicit_chain a os x r'.
Proof.
  induction x as [|e0 e' IH]; intros a os r r' F;
    cbn [Argparse.explicit_chain]; destruct (Argparse.nargs a); trivial.
  destruct os as [|c0 [|c1 os']]; trivial.
  destruct (negb (Ascii.eqb c1 "-")); trivial.
  destruct (Argparse.lookup _ _) as [a'|]; trivial.
  destruct e' as [|e1 e''].
  - now rewrite (following_similar a' r r' F).
  - now rewrite (IH a' _ r r' F).
Qed.

Lemma action_tuples_similar (a : Argparse.Action) (os : string)
    (e : option string) (r r' : list Argparse.token) :
  Forall2 similar r r' ->
  Argparse.action_tuples a os e r = Argparse.action_tuples a os e r'.
Proof.
  intros F. destruct e as [x|]; cbn [Argparse.action_tuples].
  - now apply explicit_chain_similar.
  - now apply following_similar.
Qed.

(** The loop does the same on similar tokens, turn by turn. *)
Lemma step_similar (st : Argparse.state) (t t' : Argparse.token)
    (r r' : list Argparse.token) :
  similar t t' -> Forall2 similar r r' ->
  alike (step st t r) (step st t' r').
Proof.
  intros S F.
  assert (G : forall s a os e,
             alike (step st (Argparse.O s (Some a, os, e)) r)
                   (step st (Argparse.O s (Some a, os, e)) r'
                    (* the text of the option is not looked at *))).
  { intros s a os e. cbn [step].
    rewrite (action_tuples_similar a os e r r' F).
    destruct (Argparse.action_tuples a os e r') as [[tuples n]| |];
      cbn [Argparse.bind alike]; trivial.
    destruct (Argparse.take_actions tuples st); cbn [Argparse.bind alike];
      trivial.
    split; [reflexivity|].
    destruct n; [exact F|]. destruct F; [constructor | assumption]. }
  destruct S as [[v|s [[[a|] os] e]|] | s s' a os e].
  - cbn. auto.
  - apply G.
  - cbn. auto.
  - cbn. auto.
  - apply (G s a os e).
Qed.

Lemma consume_similar (n : nat) :
  forall (toks toks' : list Argparse.token) (st : Argparse.state),
    (List.length toks <= n)%nat -> Forall2 similar toks toks' ->
    Argparse.consume st toks = Argparse.consume st toks'.
Proof.
  induction n as [|n IH]; intros toks toks' st L F.
  - destruct F; [reflexivity | cbn in L; lia].
  - destruct F as [|t t' r r' S F]; [reflexivity|].
    rewrite !consume_step.
    pose proof (step_similar st t t' r r' S F) as A.
    assert (B : forall s1 r1, step st t r = Argparse.ok (s1, r1) ->
                              (List.length r1 <= List.length r)%nat).
    { intros s1 r1 E.
      destruct t as [v|s [[[a|] os] e]|]; cbn [step] in E;
        try (injection E as <- <-; lia).
      destruct (Argparse.action_tuples a os e r) as [[tuples k]| |];
        try discriminate.
      cbn [Argparse.bind] in E.
      destruct (Argparse.take_actions tuples st); try discriminate.
      injection E as <- <-. destruct k, r; cbn; lia. }
    destruct (step st t r) as [[s1 r1]| |], (step st t' r') as [[s1' r1']| |];
      cbn [alike] in A; try contradiction; cbn [Argparse.bind].
    + destruct A as [<- A]. apply IH; [|exact A].
      specialize (B s1 r1 eq_refl). cbn in L. lia.
    + now subst.
    + reflexivity.
Qed.

(** The converse of [classify_app], before any [--]. *)
Lemma classify_app_intro (pre post : list string)
    (tp tq : list Argparse.token) :
  Argparse.classify pre = Argparse.ok tp -> ~ In Argparse.dashes tp ->
  Argparse.classify post = Argparse.ok tq ->
  Argparse.classify (pre ++ post) = Argparse.ok (tp ++ tq).
Proof.
  revert tp. induction pre as [|s pre IH]; intros tp Cp N Cq.
  - injection Cp as <-. exact Cq.
  - rewrite <- app_comm_cons. cbn [Argparse.classify] in Cp |- *.
    destruct (String.eqb s "--").
    + injection Cp as <-. exfalso. apply N. now left.
    + destruct (Argparse.parse_optional s); try discriminate;
        (destruct (Argparse.classify pre) as [ts| |]; try discriminate);
        injection Cp as <-;
        (rewrite (IH ts eq_refl); [reflexivity | | exact Cq]);
        intros D; apply N; now right.
Qed.

Lemma prefix_prefixes (s : string) :
  forall p, String.prefix p s = true -> In p (prefixes s).
Proof.
  induction s as [|c s IH]; intros [|d p] H; try (now left).
  right. rewrite prefix_cons in H.
  destruct (Ascii.eqb_spec d c) as [->|]; [|discriminate].
  apply in_map. now apply IH.
Qed.

(** A long option may be cut down to its first letter. *)
Lemma parse_optional_abbreviation (os : string) (a : Argparse.Action)
    (p : string) :
  In (os, a) Argparse.option_string_actions ->
  Python.startswith os "--" = true ->
  String.prefix p os = true -> (3 <= String.length p)%nat ->
  Argparse.parse_optional p = Argparse.optional (Some a, os, None)
  /\ Argparse.parse_optional os = Argparse.optional (Some a, os, None)
  /\ String.eqb p "--" = false /\ String.eqb os "--" = false.
Proof.
  intros I D P L. apply prefix_prefixes in P.
  table_cases I; try discriminate D; cbn in P;
    repeat (destruct P as [<-|P];
            [first [ cbn in L; lia | repeat split ] |]);
    contradiction.
Qed.

(** X13.  An abbreviation of a long option, down to [--] and one letter, does
    what the option does, wherever it stands: the command line is accepted
    with the same result, and the run is the same. *)
Theorem abbreviation_same_run (env : Env) (os : string)
    (a : Argparse.Action) (p : string) (pre post : list string)
    (args : Argparse.Namespace) :
  In (os, a) Argparse.option_string_actions ->
  Python.startswith os "--" = true ->
  String.prefix p os = true -> (3 <= String.length p)%nat ->
  (Argparse.parse_args (pre ++ p :: post) = Argparse.ok args
   <-> Argparse.parse_args (pre ++ os :: post) = Argparse.ok args)
  /\ (Argparse.parse_args (pre ++ os :: post) = Argparse.ok args ->
      main (pre ++ p :: post) env = main (pre ++ os :: post) env).
Proof.
  intros I D P L.
  destruct (parse_optional_abbreviation os a p I D P L) as (Pp & Po & Np & No).
  assert (X : forall x y,
             Argparse.parse_optional x = Argparse.optional (Some a, os, None) ->
             Argparse.parse_optional y = Argparse.optional (Some a, os, None) ->
             String.eqb x "--" = false -> String.eqb y "--" = false ->
             Argparse.parse_args (pre ++ x :: post) = Argparse.ok args ->
             Argparse.parse_args (pre ++ y :: post) = Argparse.ok args).
  { intros x y Px Py Nx Ny H.
    apply parse_args_ok_inv in H as (toks & st & C & K & E & <-).
    pose proof (classify_registered _ toks C) as R.
    destruct (classify_app pre (x :: post) toks C) as (tp & tq & Cp & -> & G).
    destruct G as [[Gd ->] | [Gn Cq]].
    - exfalso.
      eapply (consume_surely_extra _ Argparse.dashes R); try eassumption.
      + apply in_or_app. now left.
      + split; [reflexivity | discriminate].
    - rewrite (classify_option _ _ _ Nx Px) in Cq.
      destruct (Argparse.classify post) as [ts| |] eqn:Ct; try discriminate.
      injection Cq as <-.
      unfold Argparse.parse_args, Argparse.parse_known_args.
      rewrite (classify_app_intro pre (y :: post) tp
                 (Argparse.O y (Some a, os, None) :: ts) Cp Gn)
        by (rewrite (classify_option _ _ _ Ny Py), Ct; reflexivity).
      cbn [Argparse.bind].
      rewrite <- (consume_similar _ _ _ Argparse.initial (le_n _)
                    (Forall2_app (similar_refl_list tp)
                       (Forall2_cons _ _
                          (similar_option x y a os None)
                          (similar_refl_list ts)))).
      rewrite K. cbn [Argparse.bind]. now rewrite E. }
  assert (Q : Argparse.parse_args (pre ++ p :: post) = Argparse.ok args
              <-> Argparse.parse_args (pre ++ os :: post) = Argparse.ok args)
    by (split; apply X; assumption).
  split; [exact Q|]. intros H. unfold main, parse_args.
  apply Q in H as H'. now rewrite H, H'.
Qed.

Lemma abbreviation_same_run_witness :
  Argparse.parse_args (["-j"; "2"] ++ "--deb" :: ["--w"])
  = Argparse.ok (Argparse.mkNamespace "Debug" true (int_value 2) false)
  <-> Argparse.parse_args (["-j"; "2"] ++ "--debug" :: ["--w"])
      = Argparse.ok (Argparse.mkNamespace "Debug" true (int_value 2) false).
Proof.
  apply (abbreviation_same_run quiet_env "--debug" Argparse.debug "--deb"
           ["-j"; "2"] ["--w"]
           (Argparse.mkNamespace "Debug" true (int_value 2) false)).
  - simpl. tauto.
  - reflexivity.
  - reflexivity.
  - simpl. lia.
Defined.

(* ================================================================= *)
(** ** The reference block and the flags *)

(** X14.  The reference block tells the truth: for each of the four
    configurations, with the default job count, the configure and build
    command lines it shows are the ones the tool composes. *)
Theorem info_text_truthful (is_web debug info : bool) :
  let args := Argparse.mkNamespace (if debug then "Debug" else "Release")
                is_web (int_value 8) info in
  occurs (reference_line (cmake_command_of args)) info_text = true
  /\ occurs (reference_line (build_command_of args)) info_text = true.
Proof.
  destruct is_web, debug; split; vm_compute; reflexivity.
Qed.

Lemma classify_flags (argv : list string) :
  Forall (fun s => In s ["--debug"; "--release"; "--web"; "--info"]) argv ->
  exists toks,
    Argparse.classify argv = Argparse.ok toks
    /\ Forall2 (fun s t => exists a,
                  t = flag_token s a
                  /\ In (s, a) Argparse.option_string_actions)
         argv toks.
Proof.
  induction 1 as [|s l I F (toks & C & G)].
  - exists []. split; [reflexivity | constructor].
  - assert (exists a, Argparse.parse_optional s
                      = Argparse.optional (Some a, s, None)
                      /\ String.eqb s "--" = false
                      /\ In (s, a) Argparse.option_string_actions)
      as (a & P & D & T).
    { simpl in I.
      destruct I as [<-|[<-|[<-|[<-|[]]]]]; eexists;
        (split; [reflexivity | split; [reflexivity | simpl; tauto]]). }
    exists (flag_token s a :: toks). split.
    + rewrite (classify_option _ _ _ D P), C. reflexivity.
    + constructor; eauto.
Qed.

Lemma consume_flags (d : Argparse.Action) (toks : list Argparse.token) :
  d = Argparse.debug \/ d = Argparse.release ->
  Forall (fun t => exists s a,
              t = flag_token s a
              /\ (a = d \/ a = Argparse.web \/ a = Argparse.info)) toks ->
  forall st,
    (forall c, In c (Argparse.action_conflicts d) ->
               Argparse.seen c st = false) ->
    exists st',
      Argparse.consume st toks = Argparse.ok st'
      /\ Argparse.extras st' = Argparse.extras st
      /\ Argparse.jobs_count (Argparse.namespace st')
         = Argparse.jobs_count (Argparse.namespace st).
Proof.
  intros Hd. induction 1 as [|t l (s & a & -> & Ha) F IH]; intros st X.
  - exists st. auto.
  - assert (exists st1,
               Argparse.take_action a [] st = Argparse.ok st1
               /\ Argparse.extras st1 = Argparse.extras st
               /\ Argparse.jobs_count (Argparse.namespace st1)
                  = Argparse.jobs_count (Argparse.namespace st)
               /\ forall c, In c (Argparse.action_conflicts d) ->
                             Argparse.seen c st1 = false)
      as (st1 & T & E1 & J1 & X1).
    { destruct Ha as [-> | [-> | ->]].
      - destruct Hd as [-> | ->]; cbn [Argparse.take_action];
          unfold Argparse.check_conflicts; cbn [Argparse.action_conflicts find];
          unfold Argparse.seen at 1; cbn [existsb Argparse.Action_eqb orb
            Argparse.seen_non_default_actions];
          fold (Argparse.seen Argparse.release st);
          fold (Argparse.seen Argparse.debug st);
          rewrite (X _ (or_introl eq_refl)); cbn [Argparse.bind];
          eexists; (split; [reflexivity|]); cbn; repeat split;
          intros c [<-|[]]; unfold Argparse.seen; cbn;
          apply (X _ (or_introl eq_refl)).
      - cbn [Argparse.take_action]. rewrite check_conflicts_free by reflexivity.
        cbn [Argparse.bind]. eexists. split; [reflexivity|].
        cbn. repeat split. intros c Hc. unfold Argparse.seen. cbn.
        destruct Hd as [-> | ->]; destruct Hc as [<-|[]]; cbn;
          apply (X _ (or_introl eq_refl)).
      - cbn [Argparse.take_action]. rewrite check_conflicts_free by reflexivity.
        cbn [Argparse.bind]. eexists. split; [reflexivity|].
        cbn. repeat split. intros c Hc. unfold Argparse.seen. cbn.
        destruct Hd as [-> | ->]; destruct Hc as [<-|[]]; cbn;
          apply (X _ (or_introl eq_refl)). }
    destruct (IH st1 X1) as (st' & K & E & J).
    exists st'. split; [|split; congruence].
    unfold flag_token. rewrite consume_step.
    assert (S : step st (Argparse.O s (Some a, s, None)) l
                = Argparse.ok (st1, l)).
    { cbn [step Argparse.action_tuples].
      assert (M : Argparse.match_argument a l = Argparse.ok 0%nat)
        by (destruct Ha as [-> | [-> | ->]]; [destruct Hd as [-> | ->]| |];
            reflexivity).
      rewrite M. cbn [Argparse.bind firstn map Argparse.take_actions].
      rewrite T. reflexivity. }
    rewrite S. exact K.
Qed.

(** X15.  The flags combine freely: a command line made of [--web], [--info] and
    one of [--debug] and [--release], each any number of times and in any
    order, is accepted, with the default job count. *)
Theorem flags_combine (argv : list string) :
  Forall (fun s => In s ["--debug"; "--web"; "--info"]) argv
  \/ Forall (fun s => In s ["--release"; "--web"; "--info"]) argv ->
  exists args,
    Argparse.parse_args argv = Argparse.ok args
    /\ Argparse.jobs_count args = int_value 8.
Proof.
  intros H.
  assert (exists d dn,
             ((d = Argparse.debug /\ dn = "--debug")
              \/ (d = Argparse.release /\ dn = "--release"))
             /\ Forall (fun s => s = dn \/ s = "--web" \/ s = "--info") argv)
    as (d & dn & Hd & F).
  { destruct H as [H|H];
      [exists Argparse.debug, "--debug" | exists Argparse.release, "--release"];
      (split; [tauto|]); (eapply Forall_impl; [|exact H]);
      intros s I; simpl in I; intuition auto. }
  assert (G : Forall (fun s => In s ["--debug"; "--release"; "--web"; "--info"])
                argv).
  { eapply Forall_impl; [|exact F]. intros s I. simpl.
    destruct Hd as [[_ ->]|[_ ->]]; intuition auto. }
  destruct (classify_flags argv G) as (toks & C & T).
  assert (U : Forall (fun t => exists s a,
                          t = flag_token s a
                          /\ (a = d \/ a = Argparse.web \/ a = Argparse.info))
                toks).
  { clear C G H. induction T as [|s t l l' (a & -> & I) T IH];
      constructor; inversion F as [|? ? Fs Fl]; subst; [|now apply IH].
    exists s, a. split; [reflexivity|].
    apply registered_In in I.
    destruct Fs as [-> | [-> | ->]].
    - left. destruct Hd as [[-> ->]|[-> ->]]; cbn in I; congruence.
    - right; left. cbn in I. congruence.
    - right; right. cbn in I. congruence. }
  assert (Hd' : d = Argparse.debug \/ d = Argparse.release)
    by (destruct Hd as [[-> _]|[-> _]]; tauto).
  destruct (consume_flags d toks Hd' U Argparse.initial)
    as (st & K & E & J); [intros c _; reflexivity|].
  exists (Argparse.namespace st). split; [|exact J].
  unfold Argparse.parse_args, Argparse.parse_known_args.
  rewrite C. cbn [Argparse.bind]. rewrite K. cbn [Argparse.bind].
  now rewrite E.
Qed.

Lemma flags_combine_witness :
  exists args,
    Argparse.parse_args ["--info"; "--debug"; "--web"; "--debug"; "--info"]
    = Argparse.ok args
    /\ Argparse.jobs_count args = int_value 8.
Proof.
  apply (flags_combine ["--info"; "--debug"; "--web"; "--debug"; "--info"]).
  left. repeat constructor; simpl; tauto.
Defined.
